(** * Quadrature rotary-encoder driver (rotary_encoder.c / rotary_encoder.h)

    A shallow embedding of the STM32 rotary-encoder driver: the handle
    struct, the global registry of handle pointers, the interrupt callback
    and the phase-transition decoder, followed by the properties of the
    driver that the specification states. *)

From Stdlib Require Import ZArith Lia Ascii.
From Stdlib Require String.
From stdpp Require Import base option list gmap strings.

Local Open Scope Z_scope.

(** ** Machine integers

    The C integer types of the driver are modelled as [Z] with the
    conversion to the type written out wherever the C code converts. *)

Definition wrap_unsigned (bits z : Z) : Z := z mod 2 ^ bits.

Definition wrap_signed (bits z : Z) : Z :=
  (z + 2 ^ (bits - 1)) mod 2 ^ bits - 2 ^ (bits - 1).

Definition to_uint8 : Z -> Z := wrap_unsigned 8.
Definition to_int16 : Z -> Z := wrap_signed 16.

Definition is_uint8 (z : Z) : Prop := 0 <= z <= 255.
Definition is_uint16 (z : Z) : Prop := 0 <= z <= 65535.
Definition is_int16 (z : Z) : Prop := -32768 <= z <= 32767.

(** ** Outcomes

    Dereferencing NULL or a pointer to no object, and indexing an array
    outside its bounds, are undefined behaviour in C; the embedding makes
    them explicit faults. *)

Inductive fault : Type :=
| NullDereference
| DanglingPointer
| OutOfBounds.

Inductive result (A : Type) : Type :=
| Ok (a : A)
| Fault (f : fault).

Arguments Ok {A} a.
Arguments Fault {A} f.

#[global] Instance result_ret : MRet result := fun _ a => Ok a.

#[global] Instance result_bind : MBind result := fun _ _ k r =>
  match r with
  | Ok a => k a
  | Fault f => Fault f
  end.

(** ** Pointers and GPIO *)

(** A pointer to a handle is NULL ([None]) or the address of an object. *)
Abbreviation loc := positive (only parsing).
Abbreviation ptr := (option loc) (only parsing).
Abbreviation NULL := (@None loc).

(** [GPIO_TypeDef *]: the address of a GPIO port's register block. *)
Definition GPIO_port : Type := N.

(** Modelled from the spec: the vendor HAL's [GPIO_PinState], the result of
    [HAL_GPIO_ReadPin]; the HAL headers are not part of the sources.  The
    spec gives the pin read as [read_digital_level(port, pin) -> {0,1}]. *)
Inductive GPIO_PinState : Type :=
| GPIO_PIN_RESET
| GPIO_PIN_SET.

Definition pin_state_value (v : GPIO_PinState) : Z :=
  match v with
  | GPIO_PIN_RESET => 0
  | GPIO_PIN_SET => 1
  end.

(** The digital levels seen by one call of [HAL_GPIO_ReadPin]. *)
Definition gpio_levels : Type := GPIO_port -> Z -> GPIO_PinState.

(** [get_state] reads the HAL twice, with no atomicity between the reads:
    a phase edge comes with the levels at the first and at the second read. *)
Record pin_reads : Type := {
  first_read : gpio_levels;
  second_read : gpio_levels
}.

(** ** The handle struct (rotary_encoder.h) *)

Record rot_enc_handle_t : Type := {
  pin_a : Z;          (* uint16_t *)
  pin_b : Z;          (* uint16_t *)
  button_pin : Z;     (* uint16_t *)
  port_a : GPIO_port;
  port_b : GPIO_port;
  counter : Z;        (* int16_t *)
  reset_value : Z;    (* int16_t *)
  counter_max : Z;    (* int16_t *)
  counter_min : Z;    (* int16_t *)
  old_state : Z;      (* uint8_t *)
  new_state : Z       (* uint8_t *)
}.

Definition set_counter (v : Z) (h : rot_enc_handle_t) : rot_enc_handle_t :=
  {| pin_a := pin_a h; pin_b := pin_b h; button_pin := button_pin h;
     port_a := port_a h; port_b := port_b h;
     counter := v; reset_value := reset_value h;
     counter_max := counter_max h; counter_min := counter_min h;
     old_state := old_state h; new_state := new_state h |}.

Definition set_old_state (v : Z) (h : rot_enc_handle_t) : rot_enc_handle_t :=
  {| pin_a := pin_a h; pin_b := pin_b h; button_pin := button_pin h;
     port_a := port_a h; port_b := port_b h;
     counter := counter h; reset_value := reset_value h;
     counter_max := counter_max h; counter_min := counter_min h;
     old_state := v; new_state := new_state h |}.

Definition set_new_state (v : Z) (h : rot_enc_handle_t) : rot_enc_handle_t :=
  {| pin_a := pin_a h; pin_b := pin_b h; button_pin := button_pin h;
     port_a := port_a h; port_b := port_b h;
     counter := counter h; reset_value := reset_value h;
     counter_max := counter_max h; counter_min := counter_min h;
     old_state := old_state h; new_state := v |}.

(** Every field holds a value of its C type. *)
Record typed_handle (h : rot_enc_handle_t) : Prop := {
  typed_pin_a : is_uint16 (pin_a h);
  typed_pin_b : is_uint16 (pin_b h);
  typed_button_pin : is_uint16 (button_pin h);
  typed_counter : is_int16 (counter h);
  typed_reset_value : is_int16 (reset_value h);
  typed_counter_max : is_int16 (counter_max h);
  typed_counter_min : is_int16 (counter_min h);
  typed_old_state : is_uint8 (old_state h);
  typed_new_state : is_uint8 (new_state h)
}.

(** ** File scope variables (rotary_encoder.c) *)

Definition MAX_NUM_OF_ENCODERS : nat := 5.

Definition rot_enc_lookup_table : list Z :=
  [0; -1; 1; 0; 1; 0; 0; -1; -1; 0; 0; 1; 0; 1; -1; 0].

(** The program state: the registry array of handle pointers and the
    caller-owned handle objects the pointers refer to. *)
Record state : Type := {
  registered_handles : list ptr;
  mem : gmap loc rot_enc_handle_t
}.

(** [static rot_enc_handle_t *registered_handles[MAX_NUM_OF_ENCODERS] = {NULL}] *)
Definition initial_registry : list ptr := replicate MAX_NUM_OF_ENCODERS NULL.

(** ** Memory access *)

Definition deref (m : gmap loc rot_enc_handle_t) (p : ptr)
  : result rot_enc_handle_t :=
  match p with
  | None => Fault NullDereference
  | Some l =>
      match m !! l with
      | Some h => Ok h
      | None => Fault DanglingPointer
      end
  end.

Definition read_slot (regs : list ptr) (index : nat) : result ptr :=
  match regs !! index with
  | Some p => Ok p
  | None => Fault OutOfBounds
  end.

Definition read_table (transition : Z) : result Z :=
  match rot_enc_lookup_table !! Z.to_nat transition with
  | Some v => Ok v
  | None => Fault OutOfBounds
  end.

(** ** init_rotary_encoder *)

(** The [for] loop of [init_rotary_encoder], with [n] iterations left. *)
Fixpoint init_loop (n index : nat) (handle_ptr : ptr) (regs : list ptr)
  : result (bool * list ptr) :=
  match n with
  | O => Ok (false, regs)
  | S n' =>
      slot ← read_slot regs index;
      match slot with
      | None => Ok (true, <[index := handle_ptr]> regs)
      | Some _ => init_loop n' (S index) handle_ptr regs
      end
  end.

Definition init_rotary_encoder (handle_ptr : ptr) (s : state)
  : result (bool * state) :=
  '(registration_success, regs) ←
    init_loop MAX_NUM_OF_ENCODERS 0 handle_ptr (registered_handles s);
  Ok (registration_success, {| registered_handles := regs; mem := mem s |}).

(** ** Private utility functions *)

Definition get_state (rd : pin_reads) (h : rot_enc_handle_t) : Z :=
  let temp :=
    to_uint8 (Z.shiftl (pin_state_value (first_read rd (port_a h) (pin_a h))) 1) in
  let temp :=
    to_uint8 (Z.lor temp (pin_state_value (second_read rd (port_b h) (pin_b h)))) in
  temp.

Definition pin_matches (GPIO_Pin : Z) (h : rot_enc_handle_t) : bool :=
  (pin_a h =? GPIO_Pin) || (pin_b h =? GPIO_Pin) || (button_pin h =? GPIO_Pin).

(** The [for] loop of [determine_trigger], with [n] iterations left.  The
    slot is dereferenced without a NULL test, as in the source. *)
Fixpoint determine_trigger_loop (n index : nat) (GPIO_Pin : Z) (s : state)
  : result ptr :=
  match n with
  | O => Ok NULL
  | S n' =>
      slot ← read_slot (registered_handles s) index;
      h ← deref (mem s) slot;
      if pin_matches GPIO_Pin h then Ok slot
      else determine_trigger_loop n' (S index) GPIO_Pin s
  end.

Definition determine_trigger (GPIO_Pin : Z) (s : state) : result ptr :=
  determine_trigger_loop MAX_NUM_OF_ENCODERS 0 GPIO_Pin s.

(** The local [transition] of [decode_phase_transition]. *)
Definition transition_code (old new : Z) : Z :=
  to_uint8 (Z.lor (Z.shiftl old 2) new).

(** The clamped update of the counter by [lookup_value]. *)
Definition apply_step (lookup_value : Z) (h : rot_enc_handle_t)
  : rot_enc_handle_t :=
  if lookup_value <? 0 then
    if counter h >? counter_min h
    then set_counter (to_int16 (counter h + lookup_value)) h
    else h
  else if lookup_value >? 0 then
    if counter h <? counter_max h
    then set_counter (to_int16 (counter h + lookup_value)) h
    else h
  else h.

Definition decode_phase_transition (rd : pin_reads) (h : rot_enc_handle_t)
  : result rot_enc_handle_t :=
  let h := set_new_state (get_state rd h) h in
  let transition := transition_code (old_state h) (new_state h) in
  lookup_value ← read_table transition;
  let h := apply_step lookup_value h in
  Ok (set_old_state (new_state h) h).

(** ** Public functions *)

Definition store (l : loc) (h : rot_enc_handle_t) (s : state) : state :=
  {| registered_handles := registered_handles s; mem := <[l := h]> (mem s) |}.

Definition rot_enc_callback (rd : pin_reads) (GPIO_Pin : Z) (s : state)
  : result state :=
  handle_ptr ← determine_trigger GPIO_Pin s;
  match handle_ptr with
  | None => Fault NullDereference (* handle_ptr->button_pin, unchecked *)
  | Some l =>
      h ← deref (mem s) (Some l);
      if button_pin h =? GPIO_Pin then
        Ok (store l (set_counter (reset_value h) h) s)
      else
        h' ← decode_phase_transition rd h;
        Ok (store l h' s)
  end.

Definition rot_enc_get_count_value (h : rot_enc_handle_t) : Z := counter h.

(** ** Event sequences *)

(** One interrupt: the pin that fired and what the HAL reads meanwhile. *)
Record event : Type := {
  ev_pin : Z;
  ev_reads : pin_reads
}.

Fixpoint run (evs : list event) (s : state) : result state :=
  match evs with
  | [] => Ok s
  | ev :: evs' =>
      s' ← rot_enc_callback (ev_reads ev) (ev_pin ev) s;
      run evs' s'
  end.

(** Phase edges delivered to one instance, one after the other. *)
Fixpoint decode_all (rds : list pin_reads) (h : rot_enc_handle_t)
  : result rot_enc_handle_t :=
  match rds with
  | [] => Ok h
  | rd :: rds' =>
      h' ← decode_phase_transition rd h;
      decode_all rds' h'
  end.

(** Registration calls made one after the other, with their return values. *)
Fixpoint register_all (ps : list ptr) (s : state) : result (list bool * state) :=
  match ps with
  | [] => Ok ([], s)
  | p :: ps' =>
      '(b, s') ← init_rotary_encoder p s;
      '(bs, s'') ← register_all ps' s';
      Ok (b :: bs, s'')
  end.

(** ** Example configuration *)

Definition GPIOA : GPIO_port := 0x40020000%N.

Definition example_handle : rot_enc_handle_t :=
  {| pin_a := 1; pin_b := 2; button_pin := 4;
     port_a := GPIOA; port_b := GPIOA;
     counter := 5; reset_value := 0; counter_max := 10; counter_min := 0;
     old_state := 0; new_state := 0 |}.

Definition levels (a b : GPIO_PinState) : gpio_levels :=
  fun _ pin => if pin =? 1 then a else b.

Definition reads (a b : GPIO_PinState) : pin_reads :=
  {| first_read := levels a b; second_read := levels a b |}.

Definition example_state : state :=
  {| registered_handles := [Some 1%positive; NULL; NULL; NULL; NULL];
     mem := {[ 1%positive := example_handle ]} |}.

(** ** Predicates and configurations used in the statements *)

(** The table as the specification prints it, index [prev*4+new]. *)
Definition spec_transition_table : list Z :=
  [0; -1; 1; 0;  1; 0; 0; -1;  -1; 0; 0; 1;  0; 1; -1; 0].

Definition wired (a b button : Z) : rot_enc_handle_t :=
  {| pin_a := a; pin_b := b; button_pin := button;
     port_a := GPIOA; port_b := GPIOA;
     counter := 0; reset_value := 0; counter_max := 100; counter_min := -100;
     old_state := 0; new_state := 0 |}.

(** Five encoders on pins 0..14, all slots of the registry in use. *)
Definition full_state : state :=
  {| registered_handles :=
       [Some 1%positive; Some 2%positive; Some 3%positive;
        Some 4%positive; Some 5%positive];
     mem :=
       {[ 1%positive := wired 1 2 4;
          2%positive := wired 8 16 32;
          3%positive := wired 64 128 256;
          4%positive := wired 512 1024 2048;
          5%positive := wired 4096 8192 16384 ]} |}.

(** A slot the loop of [determine_trigger] steps over: it points to a
    handle, and none of the handle's pins is the one that fired. *)
Definition skipped (GPIO_Pin : Z) (s : state) (p : ptr) : Prop :=
  exists l h, p = Some l /\ mem s !! l = Some h /\ pin_matches GPIO_Pin h = false.

Definition registered (regs : list ptr) (l : loc) : Prop := Some l ∈ regs.

Definition in_bounds (h : rot_enc_handle_t) : Prop :=
  counter_min h <= counter h <= counter_max h.

(** A handle as the integrator is expected to set it up: the counter and
    the reset value lie between the configured limits. *)
Record well_configured (h : rot_enc_handle_t) : Prop := {
  configured_typed : typed_handle h;
  configured_counter : in_bounds h;
  configured_reset : counter_min h <= reset_value h <= counter_max h
}.

Definition counters_in_bounds (s : state) : Prop :=
  forall l h,
    registered (registered_handles s) l -> mem s !! l = Some h -> in_bounds h.

Definition phase_state_ok (s : state) : Prop :=
  forall l h, mem s !! l = Some h -> 0 <= old_state h <= 3.

(** An encoder whose reset value lies above its upper limit. *)
Definition reset_above_max_state : state :=
  {| registered_handles := [Some 1%positive; NULL; NULL; NULL; NULL];
     mem := {[ 1%positive :=
                 {| pin_a := 1; pin_b := 2; button_pin := 4;
                    port_a := GPIOA; port_b := GPIOA;
                    counter := 5; reset_value := 20;
                    counter_max := 10; counter_min := 0;
                    old_state := 0; new_state := 0 |} ]} |}.

Definition button_press : event :=
  {| ev_pin := 4; ev_reads := reads GPIO_PIN_RESET GPIO_PIN_RESET |}.

(** An encoder set up with its counter above its upper limit. *)
Definition counter_above_max_state : state :=
  {| registered_handles := [Some 1%positive; NULL; NULL; NULL; NULL];
     mem := {[ 1%positive :=
                 {| pin_a := 1; pin_b := 2; button_pin := 4;
                    port_a := GPIOA; port_b := GPIOA;
                    counter := 50; reset_value := 0;
                    counter_max := 10; counter_min := 0;
                    old_state := 0; new_state := 0 |} ]} |}.

Definition forward_edge : event :=
  {| ev_pin := 1; ev_reads := reads GPIO_PIN_SET GPIO_PIN_RESET |}.

Definition example_events : list event :=
  [ {| ev_pin := 1; ev_reads := reads GPIO_PIN_SET GPIO_PIN_RESET |};
    {| ev_pin := 2; ev_reads := reads GPIO_PIN_SET GPIO_PIN_SET |};
    {| ev_pin := 4; ev_reads := reads GPIO_PIN_SET GPIO_PIN_SET |};
    {| ev_pin := 1; ev_reads := reads GPIO_PIN_RESET GPIO_PIN_SET |} ].

(** [P] holds of every handle in memory that [scope] selects from the
    registry. *)
Definition holds_in (P : rot_enc_handle_t -> Prop) (scope : list ptr -> loc -> Prop)
    (s : state) : Prop :=
  forall l h, scope (registered_handles s) l -> mem s !! l = Some h -> P h.

(** ** Registry shape and handle configuration *)

(** The used slots of the registry come first: no slot after an unused one
    holds a pointer. *)
Definition packed (regs : list ptr) : Prop :=
  forall i j p,
    (i <= j)%nat -> regs !! i = Some NULL -> regs !! j = Some p -> p = NULL.

(** The fields of a handle that the integrator sets up: wiring, limits and
    reset value. *)
Record same_config (h h' : rot_enc_handle_t) : Prop := {
  same_pin_a : pin_a h' = pin_a h;
  same_pin_b : pin_b h' = pin_b h;
  same_button_pin : button_pin h' = button_pin h;
  same_port_a : port_a h' = port_a h;
  same_port_b : port_b h' = port_b h;
  same_reset_value : reset_value h' = reset_value h;
  same_counter_max : counter_max h' = counter_max h;
  same_counter_min : counter_min h' = counter_min h
}.

(** Same registry, same handle objects, each with the same configuration. *)
Definition same_setup (s s' : state) : Prop :=
  registered_handles s' = registered_handles s /\
  forall l, option_Forall2 same_config (mem s !! l) (mem s' !! l).

(** A state the driver is meant to run in: a registry of the declared size
    with its used slots first, every registered pointer referring to a
    handle whose fields hold values of their types and whose previous phase
    state is a 2-bit value. *)
Record sound_state (s : state) : Prop := {
  sound_length : length (registered_handles s) = MAX_NUM_OF_ENCODERS;
  sound_packed : packed (registered_handles s);
  sound_handles :
    forall l, registered (registered_handles s) l ->
      exists h, mem s !! l = Some h /\ 0 <= old_state h <= 3
}.

(** Some registered handle has [GPIO_Pin] as one of its three pins. *)
Definition owns_pin (s : state) (GPIO_Pin : Z) : Prop :=
  exists l h,
    registered (registered_handles s) l /\ mem s !! l = Some h /\
    pin_matches GPIO_Pin h = true.

(** The value the clamp of [decode_phase_transition] leaves in the counter. *)
Definition clamped (lookup_value : Z) (h : rot_enc_handle_t) : Z :=
  if lookup_value <? 0 then
    if counter h >? counter_min h then counter h + lookup_value else counter h
  else if lookup_value >? 0 then
    if counter h <? counter_max h then counter h + lookup_value else counter h
  else counter h.

(** An encoder with its counter at the upper limit. *)
Definition handle_at_max : rot_enc_handle_t :=
  {| pin_a := 1; pin_b := 2; button_pin := 4;
     port_a := GPIOA; port_b := GPIOA;
     counter := 10; reset_value := 0; counter_max := 10; counter_min := 0;
     old_state := 0; new_state := 0 |}.

(** The registry after the pointers [pre] were registered, in that order,
    while slots were left. *)
Definition registry_of (pre : list loc) : list ptr :=
  (Some <$> take MAX_NUM_OF_ENCODERS pre)
  ++ replicate (MAX_NUM_OF_ENCODERS - length pre) NULL.

(** * Log system (log_system.c / log_system.h) *)

Definition to_uint32 : Z -> Z := wrap_unsigned 32.
Definition is_uint32 (z : Z) : Prop := 0 <= z < 2 ^ 32.
Definition is_int32 (z : Z) : Prop := - 2 ^ 31 <= z < 2 ^ 31.

(** ** Types of log_system.h

    The enumerations are unsigned integers to the compiler, and the code
    handles values that are none of the enumerators, so they are [N]. *)

Abbreviation log_type_t := N (only parsing).
Definition NONE : log_type_t := 0%N.
Definition WARNING : log_type_t := 1%N.
Definition INFO : log_type_t := 2%N.
Definition DEBUG : log_type_t := 3%N.
Definition VERBOSE_DEBUG : log_type_t := 4%N.

Abbreviation format_type_t := N (only parsing).
Definition DECIMAL : format_type_t := 0%N.
Definition HEXADECIMAL : format_type_t := 1%N.
Definition BINARY : format_type_t := 2%N.

(** A C string is given by its characters up to the terminator. *)
Abbreviation cstring := (list ascii) (only parsing).

Definition c_str (s : String.string) : cstring := String.list_ascii_of_string s.

Record log_system_config_t : Type := {
  p_system_tag : cstring;
  file_log_level : log_type_t
}.

(** ** The UART

    The vendor HAL's [HAL_UART_Transmit] is outside the sources: a call is
    recorded with the handle pointer and the bytes it is given. *)
Record uart_call : Type := {
  call_huart : ptr;
  call_data : list ascii
}.

(** ** File scope variables (log_system.c) *)

Record log_state : Type := {
  p_uart_global : ptr;
  log_system_log : log_system_config_t;
  log_system_enabled : bool;
  global_max_output_level : log_type_t;
  uart_calls : list uart_call
}.

Definition DIGITS_IN_DEC_32_T : nat := 10.
Definition DIGITS_IN_HEX_32_T : nat := 8.
Definition DIGITS_IN_BIN_32_T : nat := 32.

(** The variables as the program starts: [p_uart_global] has no
    initialiser and is NULL. *)
Definition initial_log_state : log_state :=
  {| p_uart_global := NULL;
     log_system_log :=
       {| p_system_tag := c_str "Log_System"; file_log_level := INFO |};
     log_system_enabled := false;
     global_max_output_level := VERBOSE_DEBUG;
     uart_calls := [] |}.

Definition HAL_UART_Transmit (data : list ascii) (st : log_state) : log_state :=
  {| p_uart_global := p_uart_global st;
     log_system_log := log_system_log st;
     log_system_enabled := log_system_enabled st;
     global_max_output_level := global_max_output_level st;
     uart_calls :=
       uart_calls st ++ [ {| call_huart := p_uart_global st; call_data := data |} ] |}.

(** The bytes handed to the UART so far, in order. *)
Definition transmitted (st : log_state) : list ascii :=
  concat (call_data <$> uart_calls st).

(** ** Character buffers and the C library

    A local array starts with indeterminate bytes ([None]); reading one of
    them, or reading past the terminator-less end, has no result. *)

Abbreviation buffer := (list (option ascii)) (only parsing).

Definition NUL : ascii := "000"%char.

(** The string a buffer holds: what [strlen] measures and the UART is
    given. *)
Fixpoint buffer_string (buf : buffer) : option cstring :=
  match buf with
  | [] => None
  | None :: _ => None
  | Some c :: rest =>
      if Ascii.eqb c NUL then Some []
      else cs ← buffer_string rest; Some (c :: cs)
  end.

(** [%u] and [%x] of the C library: the digits of [val] in [base], most
    significant first, no leading zeros, lower-case letters. *)
Definition digit_char (d : Z) : ascii :=
  ascii_of_nat (Z.to_nat (if d <? 10 then 48 + d else 87 + d)).

Fixpoint digits_from (base : Z) (fuel : nat) (val : Z) (acc : cstring) : cstring :=
  match fuel with
  | O => acc
  | S fuel' =>
      let acc' := digit_char (val mod base) :: acc in
      if val / base =? 0 then acc' else digits_from base fuel' (val / base) acc'
  end.

Definition format_unsigned (base : Z) (val : Z) : cstring :=
  digits_from base 32 val [].

(** [snprintf(buf, n, ...)] with the formatted text [text]: at most [n-1]
    characters of it and a terminator are written at the start of [buf]. *)
Definition snprintf (buf : buffer) (n : nat) (text : cstring) : buffer :=
  let written := (Some <$> take (n - 1) text) ++ [Some NUL] in
  written ++ drop (length written) buf.

(** [abs] of the C library on a 32-bit [int]: no result for [INT_MIN]. *)
Definition c_abs (val : Z) : option Z :=
  if val =? - 2 ^ 31 then None else Some (Z.abs val).

(** ** Private helper functions *)

Definition log_message_preference_check
    (p_config : log_system_config_t) (level : log_type_t) (st : log_state) : bool :=
  if log_system_enabled st then
    if (level <=? global_max_output_level st)%N then
      if (level <=? file_log_level p_config)%N then true else false
    else false
  else false.

(** The text [print_tag_and_log_level] copies into [msg_buff] for a level. *)
Definition level_label (level : log_type_t) : cstring :=
  if (level =? NONE)%N then c_str ", "
  else if (level =? WARNING)%N then c_str ", WARNING: "
  else if (level =? INFO)%N then c_str ", INFO: "
  else if (level =? DEBUG)%N then c_str ", DEBUG: "
  else if (level =? VERBOSE_DEBUG)%N then c_str ", VERBOSE DEBUG: "
  else c_str ", INVALID_LOG_LEVEL: ".

Definition msg_buff_size : nat := 30.

Definition print_tag_and_log_level
    (p_tag : cstring) (level : log_type_t) (st : log_state) : log_state :=
  let st := HAL_UART_Transmit ["010"%char] st in
  let st := HAL_UART_Transmit p_tag st in
  HAL_UART_Transmit (level_label level) st.

(** The loop that writes the binary digits, with [n] iterations left: bit
    number [bit] goes to [num_string[DIGITS_IN_BIN_32_T - bit - 1]].  The
    mask is [1 << bit] converted to [uint32_t]. *)
Fixpoint binary_loop (n : nat) (bit : nat) (val : Z) (num_string : buffer) : buffer :=
  match n with
  | O => num_string
  | S n' =>
      let mask := to_uint32 (Z.shiftl 1 (Z.of_nat bit)) in
      let c := if negb (Z.land val mask =? 0) then "1"%char else "0"%char in
      binary_loop n' (S bit) val
        (<[(DIGITS_IN_BIN_32_T - bit - 1)%nat := Some c]> num_string)
  end.

Definition num_string_size : nat := 33.

Definition hex_prefix : cstring := c_str "0x".
Definition bin_prefix : cstring := c_str "0b".
Definition neg_sign : cstring := c_str "-".
Definition twos_comp : cstring := c_str "(2's Compliment) ".
Definition space : cstring := c_str " ".

Definition print_unsigned_value_with_format
    (val : Z) (format : format_type_t) (st : log_state) : option log_state :=
  let num_string : buffer := replicate num_string_size None in
  if (format =? DECIMAL)%N then
    let num_string :=
      snprintf num_string (DIGITS_IN_DEC_32_T + 1) (format_unsigned 10 val) in
    data ← buffer_string num_string;
    Some (HAL_UART_Transmit data st)
  else if (format =? HEXADECIMAL)%N then
    let num_string :=
      snprintf num_string (DIGITS_IN_HEX_32_T + 1) (format_unsigned 16 val) in
    let st := HAL_UART_Transmit hex_prefix st in
    data ← buffer_string num_string;
    Some (HAL_UART_Transmit data st)
  else if (format =? BINARY)%N then
    let num_string := binary_loop DIGITS_IN_BIN_32_T 0 val num_string in
    let num_string := <[DIGITS_IN_BIN_32_T := Some NUL]> num_string in
    let st := HAL_UART_Transmit bin_prefix st in
    data ← buffer_string num_string;
    Some (HAL_UART_Transmit data st)
  else Some st.

Definition print_signed_value_with_format
    (val : Z) (format : format_type_t) (st : log_state) : option log_state :=
  let num_string : buffer := replicate num_string_size None in
  if (format =? DECIMAL)%N then
    '(val, st) ←
      (if val <? 0 then
         let st := HAL_UART_Transmit neg_sign st in
         val ← c_abs val; Some (val, st)
       else Some (val, st));
    let num_string :=
      snprintf num_string (DIGITS_IN_DEC_32_T + 1)
        (format_unsigned 10 (to_uint32 val)) in
    data ← buffer_string num_string;
    Some (HAL_UART_Transmit data st)
  else if (format =? HEXADECIMAL)%N then
    let st := if val <? 0 then HAL_UART_Transmit twos_comp st else st in
    let num_string :=
      snprintf num_string (DIGITS_IN_HEX_32_T + 1)
        (format_unsigned 16 (to_uint32 val)) in
    let st := HAL_UART_Transmit hex_prefix st in
    data ← buffer_string num_string;
    Some (HAL_UART_Transmit data st)
  else if (format =? BINARY)%N then
    let st := if val <? 0 then HAL_UART_Transmit twos_comp st else st in
    let num_string :=
      binary_loop DIGITS_IN_BIN_32_T 0 (to_uint32 val) num_string in
    let num_string := <[DIGITS_IN_BIN_32_T := Some NUL]> num_string in
    let st := HAL_UART_Transmit bin_prefix st in
    data ← buffer_string num_string;
    Some (HAL_UART_Transmit data st)
  else Some st.

(** ** Public functions of the log system *)

Definition log_global_on (st : log_state) : log_state :=
  {| p_uart_global := p_uart_global st;
     log_system_log := log_system_log st;
     log_system_enabled := true;
     global_max_output_level := global_max_output_level st;
     uart_calls := uart_calls st |}.



Definition log_set_file_max_output_level
    (p_config : log_system_config_t) (level : log_type_t) : log_system_config_t :=
  {| p_system_tag := p_system_tag p_config; file_log_level := level |}.

Definition log_message
    (p_config : log_system_config_t) (level : log_type_t) (msg : cstring)
    (st : log_state) : log_state :=
  if log_message_preference_check p_config level st then
    let st := print_tag_and_log_level (p_system_tag p_config) level st in
    HAL_UART_Transmit msg st
  else st.

Definition log_message_with_unsigned_val
    (p_config : log_system_config_t) (level : log_type_t) (msg : cstring)
    (val : Z) (format : format_type_t) (st : log_state) : option log_state :=
  if log_message_preference_check p_config level st then
    let st := print_tag_and_log_level (p_system_tag p_config) level st in
    let st := HAL_UART_Transmit msg st in
    let st := HAL_UART_Transmit space st in
    print_unsigned_value_with_format val format st
  else Some st.

Definition log_message_with_signed_val
    (p_config : log_system_config_t) (level : log_type_t) (msg : cstring)
    (val : Z) (format : format_type_t) (st : log_state) : option log_state :=
  if log_message_preference_check p_config level st then
    let st := print_tag_and_log_level (p_system_tag p_config) level st in
    let st := HAL_UART_Transmit msg st in
    let st := HAL_UART_Transmit space st in
    print_signed_value_with_format val format st
  else Some st.

Definition init_log_system (p_uart : ptr) (st : log_state) : log_state :=
  let st :=
    {| p_uart_global := p_uart;
       log_system_log := log_system_log st;
       log_system_enabled := log_system_enabled st;
       global_max_output_level := global_max_output_level st;
       uart_calls := uart_calls st |} in
  let st := log_global_on st in
  log_message (log_system_log st) INFO (c_str "Log system initialised") st.

(** ** print_debug_info (rotary_encoder.c) *)

(** [log_rot_enc] as rotary_encoder.c initialises it. *)
Definition log_rot_enc : log_system_config_t :=
  {| p_system_tag := c_str "Rotary_Encoder"; file_log_level := VERBOSE_DEBUG |}.

Definition print_debug_info
    (config : log_system_config_t) (h : rot_enc_handle_t) (st : log_state)
  : option log_state :=
  st ← log_message_with_unsigned_val config DEBUG
         (c_str "handle_ptr->pin_a =") (pin_a h) HEXADECIMAL st;
  st ← log_message_with_unsigned_val config DEBUG
         (c_str "handle_ptr->pin_b =") (pin_b h) HEXADECIMAL st;
  st ← log_message_with_unsigned_val config DEBUG
         (c_str "handle_ptr->button_pin =") (button_pin h) HEXADECIMAL st;
  st ← log_message_with_unsigned_val config DEBUG
         (c_str "handle_ptr->port_a* =") (to_uint32 (Z.of_N (port_a h))) HEXADECIMAL st;
  st ← log_message_with_unsigned_val config DEBUG
         (c_str "handle_ptr->port_b* =") (to_uint32 (Z.of_N (port_b h))) HEXADECIMAL st;
  st ← log_message_with_signed_val config DEBUG
         (c_str "handle_ptr->counter =") (counter h) DECIMAL st;
  st ← log_message_with_signed_val config DEBUG
         (c_str "handle_ptr->counter_max =") (counter_max h) DECIMAL st;
  st ← log_message_with_signed_val config DEBUG
         (c_str "handle_ptr->counter_min =") (counter_min h) DECIMAL st;
  st ← log_message_with_unsigned_val config DEBUG
         (c_str "handle_ptr->old_state =") (old_state h) DECIMAL st;
  log_message_with_unsigned_val config DEBUG
    (c_str "handle_ptr->new_state =") (new_state h) DECIMAL st.

(** Reading back a number from its digits, most significant first. *)
Definition digit_value (c : ascii) : Z :=
  let n := Z.of_nat (nat_of_ascii c) in
  if (48 <=? n) && (n <=? 57) then n - 48
  else if (97 <=? n) && (n <=? 102) then n - 87
  else 0.

Definition parse_digits (base : Z) (cs : cstring) : Z :=
  fold_left (fun acc c => acc * base + digit_value c) cs 0.

(** The [n] low bits of [val] as characters, most significant first. *)
Definition binary_digits (n : nat) (val : Z) : cstring :=
  (fun i => if Z.testbit val (Z.of_nat (n - 1 - i)) then "1"%char else "0"%char)
    <$> seq 0 n.

(** [st'] is [st] after some more calls of [HAL_UART_Transmit], each with
    the UART handle of [st]: the settings of the log system are the same. *)
Record log_extends (st st' : log_state) : Prop := {
  extends_uart : p_uart_global st' = p_uart_global st;
  extends_log : log_system_log st' = log_system_log st;
  extends_enabled : log_system_enabled st' = log_system_enabled st;
  extends_level : global_max_output_level st' = global_max_output_level st;
  extends_calls :
    exists calls,
      uart_calls st' = uart_calls st ++ calls /\
      Forall (fun c => call_huart c = p_uart_global st) calls
}.

(** * Properties *)

(** ** Proof automation *)

Ltac enum4 x :=
  let H := fresh in
  assert (H : x = 0 \/ x = 1 \/ x = 2 \/ x = 3) by lia;
  destruct H as [-> | [-> | [-> | ->]]].

Ltac unfold_result :=
  unfold mbind, result_bind, mret, result_ret in *.

(** ** The transition table *)

Section Table.

Lemma transition_code_pack (old new : Z) :
  0 <= old <= 3 -> 0 <= new <= 3 -> transition_code old new = old * 4 + new.
Proof. intros Ho Hn. enum4 old; enum4 new; reflexivity. Qed.

Lemma read_table_in_range (code : Z) :
  0 <= code <= 15 -> exists v, read_table code = Ok v /\ -1 <= v <= 1.
Proof.
  intros Hc.
  assert (H : exists n, (n < 16)%nat /\ code = Z.of_nat n)
    by (exists (Z.to_nat code); lia).
  destruct H as (n & Hn & ->).
  do 16 (destruct n as [| n]; [eexists; split; [reflexivity | lia] |]).
  lia.
Qed.

Lemma get_state_range (rd : pin_reads) (h : rot_enc_handle_t) :
  0 <= get_state rd h <= 3.
Proof.
  unfold get_state.
  destruct (first_read rd (port_a h) (pin_a h)),
           (second_read rd (port_b h) (pin_b h)); vm_compute; split; discriminate.
Qed.

Lemma get_state_pack (rd : pin_reads) (h : rot_enc_handle_t) :
  get_state rd h =
  2 * pin_state_value (first_read rd (port_a h) (pin_a h))
  + pin_state_value (second_read rd (port_b h) (pin_b h)).
Proof.
  unfold get_state.
  destruct (first_read rd (port_a h) (pin_a h)),
           (second_read rd (port_b h) (pin_b h)); reflexivity.
Qed.

Lemma apply_step_frame (v : Z) (h : rot_enc_handle_t) :
  new_state (apply_step v h) = new_state h /\
  old_state (apply_step v h) = old_state h /\
  reset_value (apply_step v h) = reset_value h /\
  counter_min (apply_step v h) = counter_min h /\
  counter_max (apply_step v h) = counter_max h /\
  button_pin (apply_step v h) = button_pin h /\
  pin_a (apply_step v h) = pin_a h /\ pin_b (apply_step v h) = pin_b h /\
  port_a (apply_step v h) = port_a h /\ port_b (apply_step v h) = port_b h.
Proof. unfold apply_step. repeat case_match; repeat split. Qed.

(** The body of [decode_phase_transition] in terms of the sampled state. *)
Lemma decode_phase_transition_unfold (rd : pin_reads) (h : rot_enc_handle_t) :
  decode_phase_transition rd h =
  match read_table (transition_code (old_state h) (get_state rd h)) with
  | Ok step =>
      Ok (set_old_state (get_state rd h)
            (apply_step step (set_new_state (get_state rd h) h)))
  | Fault f => Fault f
  end.
Proof.
  unfold decode_phase_transition. cbn [new_state old_state set_new_state].
  unfold_result. destruct (read_table _) as [step |]; [| reflexivity].
  destruct (apply_step_frame step (set_new_state (get_state rd h) h)) as [-> _].
  reflexivity.
Qed.

End Table.

(** C2: for each of the 16 codes [prev*4+new] the decode step packs that
    code, reads from the table the step the specification lists for it
    (0 for codes 0,3,5,6,9,10,12,15; -1 for 1,7,8,14; +1 for 2,4,11,13) and
    completes with that step applied: a double-bit transition is a step of
    0, not an error. *)
Theorem decode_step_matches_table
    (rd : pin_reads) (h : rot_enc_handle_t) (prev new : Z) :
  0 <= prev <= 3 -> 0 <= new <= 3 ->
  old_state h = prev -> get_state rd h = new ->
  let code := prev * 4 + new in
  exists step,
    spec_transition_table !! Z.to_nat code = Some step /\
    transition_code prev new = code /\
    read_table code = Ok step /\
    decode_phase_transition rd h
      = Ok (set_old_state new (apply_step step (set_new_state new h))) /\
    (code ∈ [0; 3; 5; 6; 9; 10; 12; 15] -> step = 0) /\
    (code ∈ [1; 7; 8; 14] -> step = -1) /\
    (code ∈ [2; 4; 11; 13] -> step = 1) /\
    (step = 0 \/ step = -1 \/ step = 1).
Proof.
  intros Hp Hn Hold Hnew code.
  rewrite decode_phase_transition_unfold, Hold, Hnew.
  enum4 prev; enum4 new; subst code; eexists;
    (split; [reflexivity |]); (split; [reflexivity |]);
    (split; [reflexivity |]); (split; [reflexivity |]);
    rewrite ?elem_of_cons, ?elem_of_nil; lia.
Qed.

Lemma decode_step_matches_table_witness :
  exists step,
    spec_transition_table !! Z.to_nat (0 * 4 + 2) = Some step /\
    transition_code 0 2 = 0 * 4 + 2 /\
    read_table (0 * 4 + 2) = Ok step /\
    decode_phase_transition (reads GPIO_PIN_SET GPIO_PIN_RESET) example_handle
      = Ok (set_old_state 2 (apply_step step (set_new_state 2 example_handle))) /\
    (0 * 4 + 2 ∈ [0; 3; 5; 6; 9; 10; 12; 15] -> step = 0) /\
    (0 * 4 + 2 ∈ [1; 7; 8; 14] -> step = -1) /\
    (0 * 4 + 2 ∈ [2; 4; 11; 13] -> step = 1) /\
    (step = 0 \/ step = -1 \/ step = 1).
Proof.
  apply (decode_step_matches_table
           (reads GPIO_PIN_SET GPIO_PIN_RESET) example_handle 0 2);
    [lia | lia | reflexivity | reflexivity].
Defined.

(** C10: the table is antisymmetric under reversal of a transition: the
    entry for [(prev,new)] is the negation of the entry for [(new,prev)],
    so a transition followed by its reverse sums to a step of 0, and every
    diagonal entry is 0. *)
Theorem lookup_table_antisymmetric (prev new : Z) :
  0 <= prev <= 3 -> 0 <= new <= 3 ->
  exists fwd bwd,
    read_table (prev * 4 + new) = Ok fwd /\
    read_table (new * 4 + prev) = Ok bwd /\
    fwd = - bwd /\ fwd + bwd = 0 /\
    read_table (prev * 4 + prev) = Ok 0.
Proof.
  intros Hp Hn.
  enum4 prev; enum4 new; do 2 eexists;
    (split; [reflexivity |]); (split; [reflexivity |]);
    repeat split.
Qed.

Lemma lookup_table_antisymmetric_witness :
  exists fwd bwd,
    read_table (1 * 4 + 3) = Ok fwd /\
    read_table (3 * 4 + 1) = Ok bwd /\
    fwd = - bwd /\ fwd + bwd = 0 /\
    read_table (1 * 4 + 1) = Ok 0.
Proof. apply (lookup_table_antisymmetric 1 3); lia. Defined.

(** ** The quadrature step *)

Section Decode.

Variable rd : pin_reads.

Lemma to_int16_id (z : Z) : is_int16 z -> to_int16 z = z.
Proof.
  unfold is_int16, to_int16, wrap_signed. intros Hz.
  change (2 ^ (16 - 1)) with 32768. change (2 ^ 16) with 65536.
  rewrite Z.mod_small by lia. lia.
Qed.

Lemma apply_step_counter (v : Z) (h : rot_enc_handle_t) :
  counter (apply_step v h) =
  if v <? 0 then
    if counter h >? counter_min h then to_int16 (counter h + v) else counter h
  else if v >? 0 then
    if counter h <? counter_max h then to_int16 (counter h + v) else counter h
  else counter h.
Proof. unfold apply_step. repeat case_match; reflexivity. Qed.

(** With the previous phase state in range the decode step completes. *)
Lemma decode_phase_transition_ok (h : rot_enc_handle_t) :
  0 <= old_state h <= 3 ->
  exists step,
    read_table (transition_code (old_state h) (get_state rd h)) = Ok step /\
    -1 <= step <= 1 /\
    decode_phase_transition rd h =
    Ok (set_old_state (get_state rd h)
          (apply_step step (set_new_state (get_state rd h) h))).
Proof.
  intros Hold.
  pose proof (get_state_range rd h) as Hnew.
  destruct (read_table_in_range (transition_code (old_state h) (get_state rd h)))
    as (step & Hstep & Hrange).
  { rewrite transition_code_pack by assumption. lia. }
  exists step. rewrite decode_phase_transition_unfold, Hstep. auto.
Qed.

(** The decode step leaves the wiring of the handle alone, so the same
    reads sample the same state before and after it. *)
Lemma decode_phase_transition_get_state
    (rd' : pin_reads) (h h' : rot_enc_handle_t) :
  decode_phase_transition rd h = Ok h' -> get_state rd' h' = get_state rd' h.
Proof.
  rewrite decode_phase_transition_unfold.
  destruct (read_table _) as [step |]; [| discriminate].
  intros [= <-]. generalize (get_state rd h). intros new.
  unfold get_state. cbn [pin_a pin_b port_a port_b set_old_state].
  destruct (apply_step_frame step (set_new_state new h))
    as (_ & _ & _ & _ & _ & _ & -> & -> & -> & -> ).
  reflexivity.
Qed.

End Decode.

Lemma decode_all_snoc (rds : list pin_reads) (rd : pin_reads)
    (h : rot_enc_handle_t) :
  decode_all (rds ++ [rd]) h =
  match decode_all rds h with
  | Ok h' => decode_phase_transition rd h'
  | Fault f => Fault f
  end.
Proof.
  revert h. induction rds as [| rd0 rds IH]; intros h; cbn.
  - unfold_result. destruct (decode_phase_transition rd h); reflexivity.
  - unfold_result. destruct (decode_phase_transition rd0 h); [apply IH | reflexivity].
Qed.

Lemma decode_all_ok (rds : list pin_reads) (h : rot_enc_handle_t) :
  0 <= old_state h <= 3 ->
  exists h',
    decode_all rds h = Ok h' /\ 0 <= old_state h' <= 3 /\
    forall rd, get_state rd h' = get_state rd h.
Proof.
  revert h. induction rds as [| rd0 rds IH]; intros h Hold; cbn.
  - exists h. auto.
  - destruct (decode_phase_transition_ok rd0 h Hold) as (step & _ & _ & Hdec).
    rewrite Hdec. unfold_result.
    destruct (IH (set_old_state (get_state rd0 h)
                    (apply_step step (set_new_state (get_state rd0 h) h))))
      as (h' & Hall & Hold' & Hsame).
    { cbn. apply get_state_range. }
    exists h'. split; [exact Hall |]. split; [exact Hold' |].
    intros rd. rewrite Hsame.
    exact (decode_phase_transition_get_state rd0 rd h _ Hdec).
Qed.

(** C3: in the quadrature step a negative step moves the counter exactly
    when the counter before the step is strictly above [counter_min], a
    positive step exactly when it is strictly below [counter_max]; in every
    other case the counter keeps its value.  The move is the exact sum: the
    counter saturates at its bounds and does not wrap. *)
Theorem counter_step_is_clamped (rd : pin_reads) (h : rot_enc_handle_t) :
  typed_handle h -> 0 <= old_state h <= 3 ->
  exists step h',
    read_table (transition_code (old_state h) (get_state rd h)) = Ok step /\
    decode_phase_transition rd h = Ok h' /\
    (step < 0 ->
       (counter h > counter_min h -> counter h' = counter h + step) /\
       (counter h <= counter_min h -> counter h' = counter h) /\
       (counter h' <> counter h <-> counter h > counter_min h)) /\
    (step > 0 ->
       (counter h < counter_max h -> counter h' = counter h + step) /\
       (counter h >= counter_max h -> counter h' = counter h) /\
       (counter h' <> counter h <-> counter h < counter_max h)) /\
    (step = 0 -> counter h' = counter h) /\
    is_int16 (counter h').
Proof.
  intros Hty Hold.
  destruct (decode_phase_transition_ok rd h Hold) as (step & Hstep & Hrange & Hdec).
  exists step. eexists. split; [exact Hstep |]. split; [exact Hdec |].
  cbn [counter set_old_state]. rewrite apply_step_counter.
  cbn [counter counter_min counter_max set_new_state].
  destruct Hty as [_ _ _ Hc _ Hmax Hmin _ _]. unfold is_int16 in *.
  destruct (Z.ltb_spec step 0) as [Hneg | Hnneg].
  - destruct (Z.gtb_spec (counter h) (counter_min h)) as [Hgt | Hle].
    + rewrite to_int16_id by (unfold is_int16; lia). repeat split; lia.
    + repeat split; lia.
  - destruct (Z.gtb_spec step 0) as [Hpos | Hnpos].
    + destruct (Z.ltb_spec (counter h) (counter_max h)) as [Hlt | Hge].
      * rewrite to_int16_id by (unfold is_int16; lia). repeat split; lia.
      * repeat split; lia.
    + repeat split; lia.
Qed.

Lemma typed_example_handle : typed_handle example_handle.
Proof. split; vm_compute; split; discriminate. Qed.

Lemma counter_step_is_clamped_witness :
  exists step h',
    read_table (transition_code (old_state example_handle)
                  (get_state (reads GPIO_PIN_SET GPIO_PIN_RESET) example_handle))
      = Ok step /\
    decode_phase_transition (reads GPIO_PIN_SET GPIO_PIN_RESET) example_handle
      = Ok h' /\
    (step < 0 ->
       (counter example_handle > counter_min example_handle ->
        counter h' = counter example_handle + step) /\
       (counter example_handle <= counter_min example_handle ->
        counter h' = counter example_handle) /\
       (counter h' <> counter example_handle <->
        counter example_handle > counter_min example_handle)) /\
    (step > 0 ->
       (counter example_handle < counter_max example_handle ->
        counter h' = counter example_handle + step) /\
       (counter example_handle >= counter_max example_handle ->
        counter h' = counter example_handle) /\
       (counter h' <> counter example_handle <->
        counter example_handle < counter_max example_handle)) /\
    (step = 0 -> counter h' = counter example_handle) /\
    is_int16 (counter h').
Proof.
  apply (counter_step_is_clamped
           (reads GPIO_PIN_SET GPIO_PIN_RESET) example_handle).
  - exact typed_example_handle.
  - simpl. lia.
Defined.

(** C4: every phase edge ends by storing the newly sampled 2-bit state in
    [old_state], whatever the looked-up step and whether or not the clamp
    let the counter move; so after a sequence of phase edges [old_state]
    is the state sampled on the last one. *)
Theorem old_state_is_last_sample
    (rds : list pin_reads) (rd : pin_reads) (h : rot_enc_handle_t) :
  0 <= old_state h <= 3 ->
  exists before h',
    decode_all rds h = Ok before /\
    decode_phase_transition rd before = Ok h' /\
    decode_all (rds ++ [rd]) h = Ok h' /\
    old_state h' = get_state rd before /\
    new_state h' = get_state rd before /\
    get_state rd before = get_state rd h.
Proof.
  intros Hold.
  destruct (decode_all_ok rds h Hold) as (before & Hall & Hold' & Hsame).
  destruct (decode_phase_transition_ok rd before Hold') as (step & _ & _ & Hdec).
  exists before. eexists.
  split; [exact Hall |]. split; [exact Hdec |].
  split; [rewrite decode_all_snoc, Hall; exact Hdec |].
  cbn [old_state new_state set_old_state].
  destruct (apply_step_frame step (set_new_state (get_state rd before) before))
    as (-> & _).
  cbn. auto.
Qed.

Lemma old_state_is_last_sample_witness :
  exists before h',
    decode_all [reads GPIO_PIN_RESET GPIO_PIN_SET; reads GPIO_PIN_SET GPIO_PIN_SET]
      example_handle = Ok before /\
    decode_phase_transition (reads GPIO_PIN_SET GPIO_PIN_RESET) before = Ok h' /\
    decode_all ([reads GPIO_PIN_RESET GPIO_PIN_SET; reads GPIO_PIN_SET GPIO_PIN_SET]
                  ++ [reads GPIO_PIN_SET GPIO_PIN_RESET]) example_handle = Ok h' /\
    old_state h' = get_state (reads GPIO_PIN_SET GPIO_PIN_RESET) before /\
    new_state h' = get_state (reads GPIO_PIN_SET GPIO_PIN_RESET) before /\
    get_state (reads GPIO_PIN_SET GPIO_PIN_RESET) before
      = get_state (reads GPIO_PIN_SET GPIO_PIN_RESET) example_handle.
Proof.
  apply (old_state_is_last_sample
           [reads GPIO_PIN_RESET GPIO_PIN_SET; reads GPIO_PIN_SET GPIO_PIN_SET]
           (reads GPIO_PIN_SET GPIO_PIN_RESET) example_handle).
  simpl. lia.
Defined.

(** ** The registry *)

Section Registry.

Lemma state_eta (s : state) :
  {| registered_handles := registered_handles s; mem := mem s |} = s.
Proof. destruct s; reflexivity. Qed.

Lemma init_loop_first_free (n index k : nat) (p : ptr) (regs : list ptr) :
  (index <= k < index + n)%nat ->
  regs !! k = Some NULL ->
  (forall j, (index <= j < k)%nat -> regs !! j <> Some NULL) ->
  init_loop n index p regs = Ok (true, <[k := p]> regs).
Proof.
  revert index. induction n as [| n IH]; intros index Hk Hfree Hbefore; [lia |].
  cbn [init_loop]. unfold read_slot.
  destruct (regs !! index) as [[l |] |] eqn:Hslot; unfold_result.
  - assert (index <> k) by (intros ->; congruence).
    apply IH; [lia | exact Hfree | intros j Hj; apply Hbefore; lia].
  - destruct (decide (index = k)) as [-> | Hne]; [reflexivity |].
    exfalso. apply (Hbefore index); [lia | exact Hslot].
  - exfalso. apply lookup_ge_None in Hslot. apply lookup_lt_Some in Hfree. lia.
Qed.

Lemma init_loop_full (n index : nat) (p : ptr) (regs : list ptr) :
  (forall j, (index <= j < index + n)%nat -> exists l, regs !! j = Some (Some l)) ->
  init_loop n index p regs = Ok (false, regs).
Proof.
  revert index. induction n as [| n IH]; intros index Hocc; [reflexivity |].
  cbn [init_loop]. unfold read_slot.
  destruct (Hocc index) as [l ->]; [lia |]. unfold_result.
  apply IH. intros j Hj. apply Hocc. lia.
Qed.

(** The first NULL slot of an array that has one. *)
Lemma first_free_slot (regs : list ptr) :
  NULL ∈ regs ->
  exists index,
    regs !! index = Some NULL /\
    forall j, (j < index)%nat -> regs !! j <> Some NULL.
Proof.
  induction regs as [| p regs IH]; intros Hin.
  - apply elem_of_nil in Hin. contradiction.
  - destruct p as [l |].
    + apply elem_of_cons in Hin as [Hin | Hin]; [discriminate Hin |].
      destruct (IH Hin) as (index & Hfree & Hbefore).
      exists (S index). split; [exact Hfree |].
      intros [| j] Hj; cbn; [discriminate | apply Hbefore; lia].
    + exists O. split; [reflexivity | intros j Hj; lia].
Qed.

Lemma occupied_slots (regs : list ptr) (j : nat) :
  NULL ∉ regs -> (j < length regs)%nat -> exists l, regs !! j = Some (Some l).
Proof.
  intros Hfull Hj.
  destruct (lookup_lt_is_Some_2 regs j Hj) as [[l |] Hp]; [eauto |].
  exfalso. apply Hfull. exact (list_elem_of_lookup_2 regs j _ Hp).
Qed.

End Registry.

(** C8: registration stores the given pointer in the first unused slot and
    reports success whenever one of the [MAX_NUM_OF_ENCODERS] slots is
    unused; with every slot in use it reports failure and the program state
    is the one before the call, so dispatch behaves as before.  Starting
    from the empty registry five registrations succeed and a sixth fails. *)
Theorem registration_first_free_or_rejected (handle_ptr : ptr) (s : state) :
  length (registered_handles s) = MAX_NUM_OF_ENCODERS ->
  (NULL ∈ registered_handles s ->
     exists index,
       registered_handles s !! index = Some NULL /\
       (forall j, (j < index)%nat -> registered_handles s !! j <> Some NULL) /\
       init_rotary_encoder handle_ptr s =
         Ok (true, {| registered_handles := <[index := handle_ptr]> (registered_handles s);
                      mem := mem s |})) /\
  (NULL ∉ registered_handles s ->
     init_rotary_encoder handle_ptr s = Ok (false, s) /\
     forall b s', init_rotary_encoder handle_ptr s = Ok (b, s') ->
       s' = s /\
       (forall pin, determine_trigger pin s' = determine_trigger pin s) /\
       (forall rd pin, rot_enc_callback rd pin s' = rot_enc_callback rd pin s)) /\
  (forall (l1 l2 l3 l4 l5 l6 : loc),
     let five := [Some l1; Some l2; Some l3; Some l4; Some l5] in
     register_all five {| registered_handles := initial_registry; mem := mem s |}
       = Ok ([true; true; true; true; true],
             {| registered_handles := five; mem := mem s |}) /\
     init_rotary_encoder (Some l6) {| registered_handles := five; mem := mem s |}
       = Ok (false, {| registered_handles := five; mem := mem s |})).
Proof.
  intros Hlen. split; [| split].
  - intros Hin.
    destruct (first_free_slot _ Hin) as (index & Hfree & Hbefore).
    exists index. split; [exact Hfree |]. split; [exact Hbefore |].
    unfold init_rotary_encoder.
    rewrite (init_loop_first_free MAX_NUM_OF_ENCODERS 0 index); auto.
    + apply lookup_lt_Some in Hfree. lia.
    + intros j Hj. apply Hbefore. lia.
  - intros Hfull.
    assert (Hinit : init_rotary_encoder handle_ptr s = Ok (false, s)).
    { unfold init_rotary_encoder. rewrite init_loop_full.
      - unfold_result. cbn. rewrite state_eta. reflexivity.
      - intros j Hj. apply occupied_slots; [exact Hfull | lia]. }
    split; [exact Hinit |].
    intros b s'. rewrite Hinit. intros [= <- <-]. auto.
  - intros l1 l2 l3 l4 l5 l6 five. split; reflexivity.
Qed.

Lemma registration_first_free_or_rejected_witness :
  (NULL ∈ registered_handles example_state ->
     exists index,
       registered_handles example_state !! index = Some NULL /\
       (forall j, (j < index)%nat -> registered_handles example_state !! j <> Some NULL) /\
       init_rotary_encoder (Some 2%positive) example_state =
         Ok (true, {| registered_handles :=
                        <[index := Some 2%positive]> (registered_handles example_state);
                      mem := mem example_state |})) /\
  (NULL ∉ registered_handles example_state ->
     init_rotary_encoder (Some 2%positive) example_state = Ok (false, example_state) /\
     forall b s', init_rotary_encoder (Some 2%positive) example_state = Ok (b, s') ->
       s' = example_state /\
       (forall pin, determine_trigger pin s' = determine_trigger pin example_state) /\
       (forall rd pin,
          rot_enc_callback rd pin s' = rot_enc_callback rd pin example_state)) /\
  (forall (l1 l2 l3 l4 l5 l6 : loc),
     let five := [Some l1; Some l2; Some l3; Some l4; Some l5] in
     register_all five
       {| registered_handles := initial_registry; mem := mem example_state |}
       = Ok ([true; true; true; true; true],
             {| registered_handles := five; mem := mem example_state |}) /\
     init_rotary_encoder (Some l6)
       {| registered_handles := five; mem := mem example_state |}
       = Ok (false, {| registered_handles := five; mem := mem example_state |})).
Proof.
  apply (registration_first_free_or_rejected (Some 2%positive) example_state).
  reflexivity.
Defined.

(** ** Resolution of the firing pin *)

Section Resolution.

Variable GPIO_Pin : Z.
Variable s : state.

Lemma determine_trigger_loop_found (n index k : nat) (l : loc) (h : rot_enc_handle_t) :
  (index <= k < index + n)%nat ->
  registered_handles s !! k = Some (Some l) ->
  mem s !! l = Some h ->
  pin_matches GPIO_Pin h = true ->
  (forall j, (index <= j < k)%nat ->
     exists p, registered_handles s !! j = Some p /\ skipped GPIO_Pin s p) ->
  determine_trigger_loop n index GPIO_Pin s = Ok (Some l).
Proof.
  revert index. induction n as [| n IH]; intros index Hk Hslot Hmem Hpin Hskip; [lia |].
  cbn [determine_trigger_loop]. unfold read_slot.
  destruct (decide (index = k)) as [-> | Hne].
  - rewrite Hslot. unfold_result. cbn. rewrite Hmem, Hpin. reflexivity.
  - destruct (Hskip index) as (p & -> & l' & h' & -> & Hmem' & Hpin'); [lia |].
    unfold_result. cbn. rewrite Hmem', Hpin'.
    apply IH; auto; [lia |]. intros j Hj. apply Hskip. lia.
Qed.

Lemma determine_trigger_loop_null_slot (n index k : nat) :
  (index <= k < index + n)%nat ->
  registered_handles s !! k = Some NULL ->
  (forall j, (index <= j < k)%nat ->
     exists p, registered_handles s !! j = Some p /\ skipped GPIO_Pin s p) ->
  determine_trigger_loop n index GPIO_Pin s = Fault NullDereference.
Proof.
  revert index. induction n as [| n IH]; intros index Hk Hslot Hskip; [lia |].
  cbn [determine_trigger_loop]. unfold read_slot.
  destruct (decide (index = k)) as [-> | Hne].
  - rewrite Hslot. reflexivity.
  - destruct (Hskip index) as (p & -> & l' & h' & -> & Hmem' & Hpin'); [lia |].
    unfold_result. cbn. rewrite Hmem', Hpin'.
    apply IH; auto; [lia |]. intros j Hj. apply Hskip. lia.
Qed.

Lemma determine_trigger_loop_exhausted (n index : nat) :
  (forall j, (index <= j < index + n)%nat ->
     exists p, registered_handles s !! j = Some p /\ skipped GPIO_Pin s p) ->
  determine_trigger_loop n index GPIO_Pin s = Ok NULL.
Proof.
  revert index. induction n as [| n IH]; intros index Hskip; [reflexivity |].
  cbn [determine_trigger_loop]. unfold read_slot.
  destruct (Hskip index) as (p & -> & l' & h' & -> & Hmem' & Hpin'); [lia |].
  unfold_result. cbn. rewrite Hmem', Hpin'.
  apply IH. intros j Hj. apply Hskip. lia.
Qed.

(** A non-NULL result is a registered pointer to a handle with a matching
    pin, found after stepping over the slots before it. *)
Lemma determine_trigger_loop_sound (n index : nat) (l : loc) :
  determine_trigger_loop n index GPIO_Pin s = Ok (Some l) ->
  exists k h,
    (index <= k < index + n)%nat /\
    registered_handles s !! k = Some (Some l) /\
    mem s !! l = Some h /\ pin_matches GPIO_Pin h = true /\
    forall j, (index <= j < k)%nat ->
      exists p, registered_handles s !! j = Some p /\ skipped GPIO_Pin s p.
Proof.
  revert index. induction n as [| n IH]; intros index; [discriminate |].
  cbn [determine_trigger_loop]. unfold read_slot.
  destruct (registered_handles s !! index) as [[l' |] |] eqn:Hslot;
    unfold_result; cbn; try discriminate.
  destruct (mem s !! l') as [h' |] eqn:Hmem; [| discriminate].
  destruct (pin_matches GPIO_Pin h') eqn:Hpin.
  - intros [= <-]. exists index, h'. repeat split; auto; try lia.
  - intros Hrec. destruct (IH _ Hrec) as (k & h & Hk & Hk' & Hm & Hp & Hskip).
    exists k, h. repeat split; auto; try lia.
    intros j Hj. destruct (decide (j = index)) as [-> | Hne].
    + exists (Some l'). split; [exact Hslot |]. exists l', h'. auto.
    + apply Hskip. lia.
Qed.

(** First match wins: a registry whose used slots come first resolves a pin
    of a registered handle to the first handle that has it. *)
Lemma determine_trigger_first_match (k : nat) (l : loc) (h : rot_enc_handle_t) :
  (k < MAX_NUM_OF_ENCODERS)%nat ->
  registered_handles s !! k = Some (Some l) ->
  mem s !! l = Some h ->
  pin_matches GPIO_Pin h = true ->
  (forall j, (j < k)%nat ->
     exists p, registered_handles s !! j = Some p /\ skipped GPIO_Pin s p) ->
  determine_trigger GPIO_Pin s = Ok (Some l).
Proof.
  intros Hk Hslot Hmem Hpin Hskip.
  apply (determine_trigger_loop_found MAX_NUM_OF_ENCODERS 0 k l h); auto; [lia |].
  intros j Hj. apply Hskip. lia.
Qed.

Lemma determine_trigger_registered (l : loc) :
  determine_trigger GPIO_Pin s = Ok (Some l) ->
  registered (registered_handles s) l /\
  exists h, mem s !! l = Some h /\ pin_matches GPIO_Pin h = true.
Proof.
  intros Hres.
  destruct (determine_trigger_loop_sound _ _ _ Hres) as (k & h & _ & Hk & Hm & Hp & _).
  split; [exact (list_elem_of_lookup_2 _ _ _ Hk) | eauto].
Qed.

End Resolution.

(** C6 (the code departs from the claim): with no encoder registered the
    loop of [determine_trigger] reads a pin through the NULL pointer in
    slot 0, whatever pin fired, and with one encoder registered and a pin
    that is not its own it does so through the NULL pointer in slot 1;
    neither call returns NULL. *)
Theorem determine_trigger_reads_through_null_slot :
  determine_trigger 1 {| registered_handles := initial_registry; mem := ∅ |}
    = Fault NullDereference /\
  (forall GPIO_Pin m,
     determine_trigger GPIO_Pin {| registered_handles := initial_registry; mem := m |}
       = Fault NullDereference) /\
  determine_trigger 8 example_state = Fault NullDereference.
Proof.
  split; [reflexivity | split; [| reflexivity]].
  intros GPIO_Pin m.
  apply (determine_trigger_loop_null_slot GPIO_Pin _ MAX_NUM_OF_ENCODERS 0 0).
  - unfold MAX_NUM_OF_ENCODERS. lia.
  - reflexivity.
  - intros j Hj. lia.
Qed.

(** ** The interrupt callback *)

Section Callback.

Variable rd : pin_reads.
Variable GPIO_Pin : Z.
Variable s : state.

Lemma rot_enc_callback_null :
  determine_trigger GPIO_Pin s = Ok NULL ->
  rot_enc_callback rd GPIO_Pin s = Fault NullDereference.
Proof. unfold rot_enc_callback. intros ->. reflexivity. Qed.

Lemma rot_enc_callback_fault (f : fault) :
  determine_trigger GPIO_Pin s = Fault f ->
  rot_enc_callback rd GPIO_Pin s = Fault f.
Proof. unfold rot_enc_callback. intros ->. reflexivity. Qed.

Lemma rot_enc_callback_button (l : loc) (h : rot_enc_handle_t) :
  determine_trigger GPIO_Pin s = Ok (Some l) ->
  mem s !! l = Some h ->
  button_pin h = GPIO_Pin ->
  rot_enc_callback rd GPIO_Pin s = Ok (store l (set_counter (reset_value h) h) s).
Proof.
  unfold rot_enc_callback. intros -> Hmem Hbutton. unfold_result. cbn.
  rewrite Hmem. apply Z.eqb_eq in Hbutton. rewrite Hbutton. reflexivity.
Qed.

Lemma rot_enc_callback_phase (l : loc) (h : rot_enc_handle_t) :
  determine_trigger GPIO_Pin s = Ok (Some l) ->
  mem s !! l = Some h ->
  button_pin h <> GPIO_Pin ->
  rot_enc_callback rd GPIO_Pin s =
  match decode_phase_transition rd h with
  | Ok h' => Ok (store l h' s)
  | Fault f => Fault f
  end.
Proof.
  unfold rot_enc_callback. intros -> Hmem Hbutton. unfold_result. cbn.
  rewrite Hmem. apply Z.eqb_neq in Hbutton. rewrite Hbutton. reflexivity.
Qed.

(** What a completed callback has done. *)
Lemma rot_enc_callback_inv (s' : state) :
  rot_enc_callback rd GPIO_Pin s = Ok s' ->
  exists l h h',
    determine_trigger GPIO_Pin s = Ok (Some l) /\
    mem s !! l = Some h /\
    s' = store l h' s /\
    ((button_pin h = GPIO_Pin /\ h' = set_counter (reset_value h) h) \/
     (button_pin h <> GPIO_Pin /\ decode_phase_transition rd h = Ok h')).
Proof.
  intros Hcb.
  destruct (determine_trigger GPIO_Pin s) as [[l |] | f] eqn:Hres.
  - destruct (determine_trigger_registered _ _ _ Hres) as (_ & h & Hmem & _).
    destruct (decide (button_pin h = GPIO_Pin)) as [Hb | Hb].
    + rewrite (rot_enc_callback_button l h Hres Hmem Hb) in Hcb.
      injection Hcb as <-. exists l, h, (set_counter (reset_value h) h).
      split; [reflexivity | split; [exact Hmem | split; [reflexivity | left; auto]]].
    + rewrite (rot_enc_callback_phase l h Hres Hmem Hb) in Hcb.
      destruct (decode_phase_transition rd h) as [h' |] eqn:Hdec; [| discriminate].
      injection Hcb as <-. exists l, h, h'.
      split; [reflexivity | split; [exact Hmem | split; [reflexivity | right; auto]]].
  - rewrite rot_enc_callback_null in Hcb by exact Hres. discriminate.
  - rewrite (rot_enc_callback_fault f) in Hcb by exact Hres. discriminate.
Qed.

(** An edge on a pin that resolves to a handle with its previous phase
    state in range is handled to completion. *)
Lemma rot_enc_callback_completes (l : loc) (h : rot_enc_handle_t) :
  determine_trigger GPIO_Pin s = Ok (Some l) ->
  mem s !! l = Some h ->
  0 <= old_state h <= 3 ->
  exists s', rot_enc_callback rd GPIO_Pin s = Ok s'.
Proof.
  intros Hres Hmem Hold.
  destruct (decide (button_pin h = GPIO_Pin)) as [Hb | Hb].
  - rewrite (rot_enc_callback_button l h Hres Hmem Hb). eauto.
  - rewrite (rot_enc_callback_phase l h Hres Hmem Hb).
    destruct (decode_phase_transition_ok rd h Hold) as (step & _ & _ & ->). eauto.
Qed.

End Callback.

(** C7: the callback uses the result of [determine_trigger] without a NULL
    test.  When no registered handle has the pin that fired the callback
    ends in a NULL dereference and never returns; with the registry full
    [determine_trigger] does return NULL, and the dereference is the
    callback's own [handle_ptr->button_pin]. *)
Theorem unresolved_pin_dereferences_null
    (rd : pin_reads) (GPIO_Pin : Z) (s : state) :
  length (registered_handles s) = MAX_NUM_OF_ENCODERS ->
  (forall p, p ∈ registered_handles s -> p = NULL \/ skipped GPIO_Pin s p) ->
  rot_enc_callback rd GPIO_Pin s = Fault NullDereference /\
  (NULL ∉ registered_handles s -> determine_trigger GPIO_Pin s = Ok NULL) /\
  (determine_trigger GPIO_Pin s = Ok NULL ->
   rot_enc_callback rd GPIO_Pin s = Fault NullDereference).
Proof.
  intros Hlen Hnone.
  assert (Hfull : NULL ∉ registered_handles s -> determine_trigger GPIO_Pin s = Ok NULL).
  { intros Hocc. apply determine_trigger_loop_exhausted. intros j Hj.
    destruct (occupied_slots (registered_handles s) j Hocc) as [l Hl]; [lia |].
    exists (Some l). split; [exact Hl |].
    destruct (Hnone (Some l)) as [Hnull | Hskip];
      [exact (list_elem_of_lookup_2 _ _ _ Hl) | discriminate Hnull | exact Hskip]. }
  split; [| split; [exact Hfull | apply rot_enc_callback_null]].
  destruct (decide (NULL ∈ registered_handles s)) as [Hin | Hocc].
  - apply rot_enc_callback_fault.
    destruct (first_free_slot _ Hin) as (k & Hfree & Hbefore).
    apply (determine_trigger_loop_null_slot GPIO_Pin s MAX_NUM_OF_ENCODERS 0 k);
      [apply lookup_lt_Some in Hfree; lia | exact Hfree |].
    intros j Hj.
    destruct (lookup_lt_is_Some_2 (registered_handles s) j) as [p Hp];
      [apply lookup_lt_Some in Hfree; lia |].
    exists p. split; [exact Hp |].
    destruct (Hnone p (list_elem_of_lookup_2 _ _ _ Hp)) as [-> | Hskip];
      [| exact Hskip].
    exfalso. apply (Hbefore j); [lia | exact Hp].
  - apply rot_enc_callback_null, Hfull, Hocc.
Qed.

Lemma full_state_skips_pin_15 (p : ptr) :
  p ∈ registered_handles full_state -> p = NULL \/ skipped 32768 full_state p.
Proof.
  intros Hp. right. cbn in Hp.
  repeat (apply elem_of_cons in Hp as [-> | Hp];
          [eexists _, _; split; [reflexivity | split; reflexivity] |]).
  apply elem_of_nil in Hp. contradiction.
Qed.

Lemma unresolved_pin_dereferences_null_witness :
  rot_enc_callback (reads GPIO_PIN_SET GPIO_PIN_SET) 32768 full_state
    = Fault NullDereference /\
  (NULL ∉ registered_handles full_state ->
   determine_trigger 32768 full_state = Ok NULL) /\
  (determine_trigger 32768 full_state = Ok NULL ->
   rot_enc_callback (reads GPIO_PIN_SET GPIO_PIN_SET) 32768 full_state
     = Fault NullDereference).
Proof.
  apply (unresolved_pin_dereferences_null
           (reads GPIO_PIN_SET GPIO_PIN_SET) 32768 full_state).
  - reflexivity.
  - exact full_state_skips_pin_15.
Defined.

(** C5: when the pin that fired is the button pin of the resolved handle
    the callback sets that handle's counter to its reset value, whatever
    the counter and the phase state were, and changes nothing else: the
    other fields of the handle ([old_state] among them), the other handles
    and the registry are as before. *)
Theorem button_event_resets_counter_only
    (rd : pin_reads) (GPIO_Pin : Z) (s : state) (l : loc) (h : rot_enc_handle_t) :
  determine_trigger GPIO_Pin s = Ok (Some l) ->
  mem s !! l = Some h ->
  button_pin h = GPIO_Pin ->
  exists s' h',
    rot_enc_callback rd GPIO_Pin s = Ok s' /\
    mem s' !! l = Some h' /\
    counter h' = reset_value h /\
    h' = set_counter (reset_value h) h /\
    old_state h' = old_state h /\ new_state h' = new_state h /\
    reset_value h' = reset_value h /\
    counter_min h' = counter_min h /\ counter_max h' = counter_max h /\
    pin_a h' = pin_a h /\ pin_b h' = pin_b h /\ button_pin h' = button_pin h /\
    port_a h' = port_a h /\ port_b h' = port_b h /\
    registered_handles s' = registered_handles s /\
    (forall l', l' <> l -> mem s' !! l' = mem s !! l').
Proof.
  intros Hres Hmem Hbutton.
  exists (store l (set_counter (reset_value h) h) s), (set_counter (reset_value h) h).
  split; [apply rot_enc_callback_button; assumption |].
  split; [cbn; apply lookup_insert_eq |].
  repeat (split; [reflexivity |]).
  intros l' Hne. cbn. apply lookup_insert_ne. congruence.
Qed.

Lemma button_event_resets_counter_only_witness :
  exists s' h',
    rot_enc_callback (reads GPIO_PIN_SET GPIO_PIN_RESET) 4 example_state = Ok s' /\
    mem s' !! 1%positive = Some h' /\
    counter h' = reset_value example_handle /\
    h' = set_counter (reset_value example_handle) example_handle /\
    old_state h' = old_state example_handle /\
    new_state h' = new_state example_handle /\
    reset_value h' = reset_value example_handle /\
    counter_min h' = counter_min example_handle /\
    counter_max h' = counter_max example_handle /\
    pin_a h' = pin_a example_handle /\ pin_b h' = pin_b example_handle /\
    button_pin h' = button_pin example_handle /\
    port_a h' = port_a example_handle /\ port_b h' = port_b example_handle /\
    registered_handles s' = registered_handles example_state /\
    (forall l', l' <> 1%positive -> mem s' !! l' = mem example_state !! l').
Proof.
  apply (button_event_resets_counter_only
           (reads GPIO_PIN_SET GPIO_PIN_RESET) 4 example_state 1%positive
           example_handle); reflexivity.
Defined.

(** ** Invariants of the handles *)

Section Preservation.

(** [P] is a property of handles kept by both branches of the callback;
    [scope] selects, from the registry, the handles it is required of. *)
Variable P : rot_enc_handle_t -> Prop.
Variable scope : list ptr -> loc -> Prop.

Hypothesis scope_registered : forall regs l, registered regs l -> scope regs l.
Hypothesis P_reset : forall h, P h -> P (set_counter (reset_value h) h).
Hypothesis P_decode :
  forall rd h h', P h -> decode_phase_transition rd h = Ok h' -> P h'.

Lemma rot_enc_callback_preserves (rd : pin_reads) (GPIO_Pin : Z) (s s' : state) :
  holds_in P scope s -> rot_enc_callback rd GPIO_Pin s = Ok s' -> holds_in P scope s'.
Proof.
  intros Hinv Hcb.
  destruct (rot_enc_callback_inv rd GPIO_Pin s s' Hcb)
    as (l & h & h' & Hres & Hmem & -> & Hbranch).
  assert (Hh : P h).
  { apply (Hinv l); [| exact Hmem].
    apply scope_registered. apply (determine_trigger_registered GPIO_Pin s l Hres). }
  assert (Hh' : P h').
  { destruct Hbranch as [[_ ->] | [_ Hdec]]; [apply P_reset | eapply P_decode]; eauto. }
  intros l2 h2 Hscope. cbn in *.
  destruct (decide (l = l2)) as [<- | Hne].
  - rewrite lookup_insert_eq. intros [= <-]. exact Hh'.
  - rewrite lookup_insert_ne by exact Hne. apply Hinv. exact Hscope.
Qed.

Lemma run_preserves (evs : list event) (s s' : state) :
  holds_in P scope s -> run evs s = Ok s' -> holds_in P scope s'.
Proof.
  revert s. induction evs as [| ev evs IH]; intros s Hinv; cbn [run].
  - intros [= <-]. exact Hinv.
  - unfold_result.
    destruct (rot_enc_callback (ev_reads ev) (ev_pin ev) s) as [s1 |] eqn:Hcb;
      [| discriminate].
    apply IH. exact (rot_enc_callback_preserves _ _ _ _ Hinv Hcb).
Qed.

End Preservation.

Lemma init_rotary_encoder_mem (handle_ptr : ptr) (s s' : state) (b : bool) :
  init_rotary_encoder handle_ptr s = Ok (b, s') -> mem s' = mem s.
Proof.
  unfold init_rotary_encoder. unfold_result.
  destruct (init_loop _ _ _ _) as [[b' regs] |]; cbn; [| discriminate].
  intros [= _ <-]. reflexivity.
Qed.

Lemma well_configured_reset (h : rot_enc_handle_t) :
  well_configured h -> well_configured (set_counter (reset_value h) h).
Proof.
  intros [[] Hc Hr]. split; [split; cbn; assumption | exact Hr | exact Hr].
Qed.

Lemma read_table_values (code step : Z) :
  read_table code = Ok step -> -1 <= step <= 1.
Proof.
  unfold read_table.
  destruct (rot_enc_lookup_table !! Z.to_nat code) as [v |] eqn:Hv; [| discriminate].
  intros [= <-]. apply list_elem_of_lookup_2 in Hv.
  unfold rot_enc_lookup_table in Hv.
  rewrite !elem_of_cons, elem_of_nil in Hv. lia.
Qed.

Lemma well_configured_decode (rd : pin_reads) (h h' : rot_enc_handle_t) :
  well_configured h -> decode_phase_transition rd h = Ok h' -> well_configured h'.
Proof.
  intros [Hty Hc Hr]. rewrite decode_phase_transition_unfold.
  destruct (read_table _) as [step |] eqn:Hstep; [| discriminate].
  intros [= <-]. apply read_table_values in Hstep.
  pose proof (get_state_range rd h) as Hnew.
  set (new := get_state rd h) in *.
  pose proof (apply_step_counter step (set_new_state new h)) as Hctr.
  destruct (apply_step_frame step (set_new_state new h))
    as (Hf1 & Hf2 & Hf3 & Hf4 & Hf5 & Hf6 & Hf7 & Hf8 & _).
  cbn [counter counter_min counter_max set_new_state] in Hctr.
  destruct Hty as [Ha Hb Hbtn Hcnt Hrst Hmax Hmin Ho Hn].
  unfold in_bounds, is_int16, is_uint16, is_uint8 in *.
  assert (Hnewc : counter_min h <= counter (apply_step step (set_new_state new h))
                    <= counter_max h).
  { rewrite Hctr.
    destruct (Z.ltb_spec step 0); [destruct (Z.gtb_spec (counter h) (counter_min h)) |
      destruct (Z.gtb_spec step 0); [destruct (Z.ltb_spec (counter h) (counter_max h)) |]];
      try rewrite to_int16_id by (unfold is_int16; lia); lia. }
  split; [split | |]; unfold in_bounds, is_int16, is_uint16, is_uint8;
    cbn [pin_a pin_b button_pin counter reset_value counter_max counter_min
         old_state new_state set_old_state];
    rewrite ?Hf1, ?Hf2, ?Hf3, ?Hf4, ?Hf5, ?Hf6, ?Hf7, ?Hf8;
    cbn [pin_a pin_b button_pin counter reset_value counter_max counter_min
         old_state new_state set_new_state]; try lia.
Qed.

Lemma decode_phase_transition_old_state
    (rd : pin_reads) (h h' : rot_enc_handle_t) :
  decode_phase_transition rd h = Ok h' -> 0 <= old_state h' <= 3.
Proof.
  rewrite decode_phase_transition_unfold.
  destruct (read_table _) as [step |]; [| discriminate].
  intros [= <-]. cbn. apply get_state_range.
Qed.

(** C9: with [old_state] in [0,3] the sampled state lies in [0,3], the
    transition code lies in [0,15], the read of the 16-entry table is in
    bounds, and the decode step completes with [old_state] in [0,3] again;
    the callback, whole event sequences and registration keep every
    handle's [old_state] in [0,3]. *)
Theorem phase_state_stays_in_range (s : state) :
  phase_state_ok s ->
  (forall rd l h, mem s !! l = Some h ->
     0 <= get_state rd h <= 3 /\
     0 <= transition_code (old_state h) (get_state rd h) <= 15 /\
     (exists step,
        rot_enc_lookup_table
          !! Z.to_nat (transition_code (old_state h) (get_state rd h)) = Some step /\
        read_table (transition_code (old_state h) (get_state rd h)) = Ok step) /\
     exists h', decode_phase_transition rd h = Ok h' /\ 0 <= old_state h' <= 3) /\
  (forall rd pin s', rot_enc_callback rd pin s = Ok s' -> phase_state_ok s') /\
  (forall evs s', run evs s = Ok s' -> phase_state_ok s') /\
  (forall p b s', init_rotary_encoder p s = Ok (b, s') -> phase_state_ok s').
Proof.
  intros Hok.
  assert (Hinv : holds_in (fun h => 0 <= old_state h <= 3) (fun _ _ => True) s).
  { intros l h _ Hmem. exact (Hok l h Hmem). }
  assert (Hrun : forall evs s', run evs s = Ok s' -> phase_state_ok s').
  { intros evs s' Hevs l h Hmem.
    refine (run_preserves (fun h => 0 <= old_state h <= 3) (fun _ _ => True)
              _ _ _ evs s s' Hinv Hevs l h I Hmem); auto.
    intros rd h0 h0' _. apply decode_phase_transition_old_state. }
  split; [| split; [| split; [exact Hrun |]]].
  - intros rd l h Hmem. pose proof (Hok l h Hmem) as Hold.
    pose proof (get_state_range rd h) as Hnew.
    split; [exact Hnew |].
    split; [rewrite transition_code_pack by assumption; lia |].
    destruct (decode_phase_transition_ok rd h Hold) as (step & Hstep & _ & Hdec).
    split.
    + exists step. split; [| exact Hstep].
      unfold read_table in Hstep.
      destruct (rot_enc_lookup_table !! _) as [v |]; [| discriminate].
      congruence.
    + eexists. split; [exact Hdec |]. cbn. exact Hnew.
  - intros rd pin s' Hcb. apply (Hrun [ {| ev_pin := pin; ev_reads := rd |} ]).
    cbn [run ev_pin ev_reads]. rewrite Hcb. reflexivity.
  - intros p b s' Hinit l h. rewrite (init_rotary_encoder_mem p s s' b Hinit).
    apply Hok.
Qed.

Lemma phase_state_ok_example : phase_state_ok example_state.
Proof.
  intros l h Hmem. cbn in Hmem.
  apply lookup_singleton_Some in Hmem as [_ <-]. cbn. lia.
Qed.

Lemma phase_state_stays_in_range_witness :
  (forall rd l h, mem example_state !! l = Some h ->
     0 <= get_state rd h <= 3 /\
     0 <= transition_code (old_state h) (get_state rd h) <= 15 /\
     (exists step,
        rot_enc_lookup_table
          !! Z.to_nat (transition_code (old_state h) (get_state rd h)) = Some step /\
        read_table (transition_code (old_state h) (get_state rd h)) = Ok step) /\
     exists h', decode_phase_transition rd h = Ok h' /\ 0 <= old_state h' <= 3) /\
  (forall rd pin s', rot_enc_callback rd pin example_state = Ok s' -> phase_state_ok s') /\
  (forall evs s', run evs example_state = Ok s' -> phase_state_ok s') /\
  (forall p b s', init_rotary_encoder p example_state = Ok (b, s') -> phase_state_ok s').
Proof.
  apply (phase_state_stays_in_range example_state).
  exact phase_state_ok_example.
Defined.

(** ** The counter and its limits *)

(** C1, as stated, fails: an encoder with limits 0..10, counter 5 and reset
    value 20 is within its limits before the button is pressed and has
    counter 20 after; and an encoder set up with limits 0..10 and counter
    50 still has counter 50 after a forward phase edge. *)
Lemma counter_leaves_bounds_on_reset :
  (counters_in_bounds reset_above_max_state /\
   exists s',
     run [button_press] reset_above_max_state = Ok s' /\
     mem s' !! 1%positive
       = Some {| pin_a := 1; pin_b := 2; button_pin := 4;
                 port_a := GPIOA; port_b := GPIOA;
                 counter := 20; reset_value := 20;
                 counter_max := 10; counter_min := 0;
                 old_state := 0; new_state := 0 |} /\
     ~ counters_in_bounds s') /\
  (exists s',
     run [forward_edge] counter_above_max_state = Ok s' /\
     ~ counters_in_bounds s').
Proof.
  split; [split |].
  - intros l h _ Hmem. cbn in Hmem.
    apply lookup_singleton_Some in Hmem as [_ <-]. unfold in_bounds. cbn. lia.
  - eexists. split; [reflexivity |]. split; [reflexivity |].
    intros Hbounds.
    specialize (Hbounds 1%positive _ (list_elem_of_here _ _) eq_refl).
    unfold in_bounds in Hbounds. cbn in Hbounds. lia.
  - eexists. split; [reflexivity |].
    intros Hbounds.
    specialize (Hbounds 1%positive _ (list_elem_of_here _ _) eq_refl).
    unfold in_bounds in Hbounds. cbn in Hbounds. lia.
Qed.

(** C1 (amended): when every registered handle starts with its counter and
    its reset value between [counter_min] and [counter_max], then after
    every sequence of events (phase edges and button events) that the
    callback handles, the counter of every registered handle is between its
    limits. *)
Theorem counter_stays_in_bounds (evs : list event) (s s' : state) :
  (forall l h, registered (registered_handles s) l -> mem s !! l = Some h ->
     well_configured h) ->
  run evs s = Ok s' ->
  counters_in_bounds s' /\
  (forall l h, registered (registered_handles s') l -> mem s' !! l = Some h ->
     well_configured h).
Proof.
  intros Hconf Hrun.
  assert (Hconf' : holds_in well_configured registered s').
  { refine (run_preserves well_configured registered _ _ _ evs s s' Hconf Hrun); auto.
    - exact well_configured_reset.
    - intros rd h h'. apply well_configured_decode. }
  split; [| exact Hconf'].
  intros l h Hreg Hmem. exact (configured_counter h (Hconf' l h Hreg Hmem)).
Qed.

Lemma well_configured_example :
  forall l h,
    registered (registered_handles example_state) l ->
    mem example_state !! l = Some h -> well_configured h.
Proof.
  intros l h _ Hmem. cbn in Hmem.
  apply lookup_singleton_Some in Hmem as [_ <-].
  split; [exact typed_example_handle | |]; unfold in_bounds; cbn; lia.
Qed.

Lemma counter_stays_in_bounds_witness :
  exists s',
    run example_events example_state = Ok s' /\
    counters_in_bounds s' /\
    (forall l h, registered (registered_handles s') l -> mem s' !! l = Some h ->
       well_configured h).
Proof.
  eexists. split; [reflexivity |].
  apply (counter_stays_in_bounds example_events example_state).
  - exact well_configured_example.
  - reflexivity.
Defined.

(** * Further properties of the encoder driver *)

(** ** One decode step, in full *)

Lemma same_config_refl (h : rot_enc_handle_t) : same_config h h.
Proof. split; reflexivity. Qed.

Lemma same_config_trans (h1 h2 h3 : rot_enc_handle_t) :
  same_config h1 h2 -> same_config h2 h3 -> same_config h1 h3.
Proof. intros [] []. split; congruence. Qed.

Lemma same_config_get_state (rd : pin_reads) (h h' : rot_enc_handle_t) :
  same_config h h' -> get_state rd h' = get_state rd h.
Proof. intros []. unfold get_state. congruence. Qed.

Lemma same_config_pin_matches (GPIO_Pin : Z) (h h' : rot_enc_handle_t) :
  same_config h h' -> pin_matches GPIO_Pin h' = pin_matches GPIO_Pin h.
Proof. intros []. unfold pin_matches. congruence. Qed.

Lemma decode_phase_transition_same_config
    (rd : pin_reads) (h h' : rot_enc_handle_t) :
  decode_phase_transition rd h = Ok h' -> same_config h h'.
Proof.
  rewrite decode_phase_transition_unfold.
  destruct (read_table _) as [step |]; [| discriminate].
  intros [= <-].
  destruct (apply_step_frame step (set_new_state (get_state rd h) h))
    as (_ & _ & Hr & Hmin & Hmax & Hb & Ha & Hpb & Hpa & Hpo).
  split; cbn [pin_a pin_b button_pin port_a port_b reset_value counter_max
              counter_min set_old_state]; assumption.
Qed.

(** The decode step on a handle with typed fields and a 2-bit previous
    state: the step read from the table, the clamped counter, the new
    previous state. *)
Lemma decode_phase_transition_step (rd : pin_reads) (h : rot_enc_handle_t) :
  typed_handle h -> 0 <= old_state h <= 3 ->
  exists step h',
    read_table (transition_code (old_state h) (get_state rd h)) = Ok step /\
    -1 <= step <= 1 /\
    decode_phase_transition rd h = Ok h' /\
    counter h' = clamped step h /\
    old_state h' = get_state rd h /\
    typed_handle h' /\ same_config h h'.
Proof.
  intros Hty Hold.
  destruct (decode_phase_transition_ok rd h Hold) as (step & Hstep & Hrange & Hdec).
  exists step. eexists. split; [exact Hstep |]. split; [exact Hrange |].
  split; [exact Hdec |].
  pose proof (decode_phase_transition_same_config rd h _ Hdec) as Hcfg.
  pose proof (get_state_range rd h) as Hnew.
  assert (Hctr : counter (apply_step step (set_new_state (get_state rd h) h))
                 = clamped step h).
  { rewrite apply_step_counter. unfold clamped.
    cbn [counter counter_min counter_max set_new_state].
    destruct Hty as [_ _ _ Hc _ Hmax Hmin _ _]. unfold is_int16 in *.
    repeat case_match; try reflexivity; apply to_int16_id; unfold is_int16; lia. }
  split; [exact Hctr |]. split; [reflexivity |]. split; [| exact Hcfg].
  destruct Hcfg as [Ha Hb Hbtn _ _ Hr Hmax Hmin].
  destruct Hty as [Tpa Tpb Tbtn Tc Tr Tmax Tmin To Tn].
  split; rewrite ?Ha, ?Hb, ?Hbtn, ?Hr, ?Hmax, ?Hmin; try assumption.
  - cbn [counter set_old_state]. rewrite Hctr. unfold clamped, is_int16 in *.
    repeat case_match; lia.
  - cbn. unfold is_uint8. lia.
  - cbn [new_state set_old_state].
    destruct (apply_step_frame step (set_new_state (get_state rd h) h)) as [-> _].
    cbn. unfold is_uint8. lia.
Qed.

(** The table entries of a transition and of its reverse are opposite. *)
Lemma read_table_reverse (prev new fwd bwd : Z) :
  0 <= prev <= 3 -> 0 <= new <= 3 ->
  read_table (transition_code prev new) = Ok fwd ->
  read_table (transition_code new prev) = Ok bwd ->
  bwd = - fwd.
Proof.
  intros Hp Hn. enum4 prev; enum4 new; cbn; intros [= <-] [= <-]; reflexivity.
Qed.

Lemma decode_phase_transition_known (rd : pin_reads) (h : rot_enc_handle_t)
    (prev new step : Z) :
  typed_handle h -> old_state h = prev -> get_state rd h = new ->
  0 <= prev <= 3 ->
  read_table (transition_code prev new) = Ok step ->
  exists h',
    decode_phase_transition rd h = Ok h' /\
    counter h' = clamped step h /\
    old_state h' = new /\
    typed_handle h' /\ same_config h h'.
Proof.
  intros Hty Hold Hnew Hp Hstep.
  destruct (decode_phase_transition_step rd h Hty) as
    (step' & h' & Hstep' & _ & Hdec & Hctr & Hold' & Hty' & Hcfg); [lia |].
  rewrite Hold, Hnew, Hstep in Hstep'. injection Hstep' as <-.
  exists h'. rewrite Hold' in *. auto 6.
Qed.

Lemma clamped_up (h : rot_enc_handle_t) :
  counter h < counter_max h -> clamped 1 h = counter h + 1.
Proof.
  intros Hlt. unfold clamped. cbn.
  destruct (Z.ltb_spec (counter h) (counter_max h)); lia.
Qed.

Lemma clamped_down (h : rot_enc_handle_t) :
  counter h > counter_min h -> clamped (-1) h = counter h - 1.
Proof.
  intros Hgt. unfold clamped. cbn.
  destruct (Z.gtb_spec (counter h) (counter_min h)); lia.
Qed.

(** Runs one known edge of a sequence: [h] is the handle before the edge,
    [h0] the handle the sequence started from, [h'] the handle after. *)
Ltac known_edge rd h h0 Hty Hold Hcfg Hnew prev new step h' Hty' Hold' Hcfg' Hctr :=
  let Hdec := fresh "Hdec" in
  let Hc := fresh "Hc" in
  destruct (decode_phase_transition_known rd h prev new step Hty Hold)
    as (h' & Hdec & Hctr & Hold' & Hty' & Hc);
  [ transitivity (get_state rd h0);
    [exact (same_config_get_state rd h0 h Hcfg) | exact Hnew]
  | lia
  | reflexivity
  | cbn [decode_all]; rewrite Hdec; unfold_result;
    pose proof (same_config_trans h0 h h' Hcfg Hc) as Hcfg' ].

(** X1: one full Gray-code cycle of the two phases counts four: from phase
    state 0 the samples 2, 3, 1, 0 raise the counter by 4 when it has room
    below [counter_max], and the opposite cycle 1, 3, 2, 0 lowers it by 4
    when it has room above [counter_min]; either way the phase state is 0
    again. *)
Theorem full_cycle_counts_four
    (h : rot_enc_handle_t) (rd1 rd2 rd3 rd4 : pin_reads) :
  typed_handle h -> old_state h = 0 ->
  (get_state rd1 h = 2 -> get_state rd2 h = 3 ->
   get_state rd3 h = 1 -> get_state rd4 h = 0 ->
   counter h + 4 <= counter_max h ->
   exists h',
     decode_all [rd1; rd2; rd3; rd4] h = Ok h' /\
     counter h' = counter h + 4 /\ old_state h' = 0) /\
  (get_state rd1 h = 1 -> get_state rd2 h = 3 ->
   get_state rd3 h = 2 -> get_state rd4 h = 0 ->
   counter_min h <= counter h - 4 ->
   exists h',
     decode_all [rd1; rd2; rd3; rd4] h = Ok h' /\
     counter h' = counter h - 4 /\ old_state h' = 0).
Proof.
  intros Hty Hold. pose proof (same_config_refl h) as Hcfg. split.
  - intros H1 H2 H3 H4 Hroom.
    known_edge rd1 h h Hty Hold Hcfg H1 0 2 1 e1 Htya Holda Hcfga Hctra.
    known_edge rd2 e1 h Htya Holda Hcfga H2 2 3 1 e2 Htyb Holdb Hcfgb Hctrb.
    known_edge rd3 e2 h Htyb Holdb Hcfgb H3 3 1 1 e3 Htyc Holdc Hcfgc Hctrc.
    known_edge rd4 e3 h Htyc Holdc Hcfgc H4 1 0 1 e4 Htyd Holdd Hcfgd Hctrd.
    destruct Hcfga as [_ _ _ _ _ _ Hm1 _], Hcfgb as [_ _ _ _ _ _ Hm2 _],
             Hcfgc as [_ _ _ _ _ _ Hm3 _].
    rewrite clamped_up in Hctra by lia.
    rewrite clamped_up in Hctrb by lia.
    rewrite clamped_up in Hctrc by lia.
    rewrite clamped_up in Hctrd by lia.
    exists e4. split; [reflexivity |]. split; [lia | assumption].
  - intros H1 H2 H3 H4 Hroom.
    known_edge rd1 h h Hty Hold Hcfg H1 0 1 (-1) e1 Htya Holda Hcfga Hctra.
    known_edge rd2 e1 h Htya Holda Hcfga H2 1 3 (-1) e2 Htyb Holdb Hcfgb Hctrb.
    known_edge rd3 e2 h Htyb Holdb Hcfgb H3 3 2 (-1) e3 Htyc Holdc Hcfgc Hctrc.
    known_edge rd4 e3 h Htyc Holdc Hcfgc H4 2 0 (-1) e4 Htyd Holdd Hcfgd Hctrd.
    destruct Hcfga as [_ _ _ _ _ _ _ Hm1], Hcfgb as [_ _ _ _ _ _ _ Hm2],
             Hcfgc as [_ _ _ _ _ _ _ Hm3].
    rewrite clamped_down in Hctra by lia.
    rewrite clamped_down in Hctrb by lia.
    rewrite clamped_down in Hctrc by lia.
    rewrite clamped_down in Hctrd by lia.
    exists e4. split; [reflexivity |]. split; [lia | assumption].
Qed.

Lemma full_cycle_counts_four_witness :
  (exists h',
     decode_all [reads GPIO_PIN_SET GPIO_PIN_RESET; reads GPIO_PIN_SET GPIO_PIN_SET;
                 reads GPIO_PIN_RESET GPIO_PIN_SET; reads GPIO_PIN_RESET GPIO_PIN_RESET]
       example_handle = Ok h' /\
     counter h' = counter example_handle + 4 /\ old_state h' = 0) /\
  (exists h',
     decode_all [reads GPIO_PIN_RESET GPIO_PIN_SET; reads GPIO_PIN_SET GPIO_PIN_SET;
                 reads GPIO_PIN_SET GPIO_PIN_RESET; reads GPIO_PIN_RESET GPIO_PIN_RESET]
       example_handle = Ok h' /\
     counter h' = counter example_handle - 4 /\ old_state h' = 0).
Proof.
  split.
  - apply (full_cycle_counts_four example_handle
             (reads GPIO_PIN_SET GPIO_PIN_RESET) (reads GPIO_PIN_SET GPIO_PIN_SET)
             (reads GPIO_PIN_RESET GPIO_PIN_SET) (reads GPIO_PIN_RESET GPIO_PIN_RESET)
             typed_example_handle eq_refl); try reflexivity. simpl. lia.
  - apply (full_cycle_counts_four example_handle
             (reads GPIO_PIN_RESET GPIO_PIN_SET) (reads GPIO_PIN_SET GPIO_PIN_SET)
             (reads GPIO_PIN_SET GPIO_PIN_RESET) (reads GPIO_PIN_RESET GPIO_PIN_RESET)
             typed_example_handle eq_refl); try reflexivity. simpl. lia.
Defined.

(** Two edges in a row, the second sampling the phase state the first
    started from. *)
Lemma there_and_back (h : rot_enc_handle_t) (rd1 rd2 : pin_reads) :
  typed_handle h -> 0 <= old_state h <= 3 ->
  get_state rd2 h = old_state h ->
  exists step h1 h2,
    read_table (transition_code (old_state h) (get_state rd1 h)) = Ok step /\
    -1 <= step <= 1 /\
    decode_all [rd1; rd2] h = Ok h2 /\
    counter h1 = clamped step h /\
    counter h2 = clamped (- step) h1 /\
    counter_min h1 = counter_min h /\ counter_max h1 = counter_max h /\
    old_state h2 = old_state h.
Proof.
  intros Hty Hold Hback.
  pose proof (get_state_range rd1 h) as Hnew.
  destruct (decode_phase_transition_step rd1 h Hty Hold)
    as (step & h1 & Hstep & Hrange & Hdec1 & Hctr1 & Hold1 & Hty1 & Hcfg1).
  destruct (decode_phase_transition_step rd2 h1 Hty1)
    as (step2 & h2 & Hstep2 & _ & Hdec2 & Hctr2 & Hold2 & _ & _); [lia |].
  rewrite (same_config_get_state rd2 h h1 Hcfg1), Hold1, Hback in Hstep2.
  rewrite (read_table_reverse _ _ _ _ Hold Hnew Hstep Hstep2) in Hctr2.
  exists step, h1, h2. split; [exact Hstep |]. split; [exact Hrange |].
  split; [cbn [decode_all]; rewrite Hdec1; unfold_result; rewrite Hdec2; reflexivity |].
  rewrite Hold2, (same_config_get_state rd2 h h1 Hcfg1).
  destruct Hcfg1 as [_ _ _ _ _ _ Hmax Hmin].
  auto 8.
Qed.

(** X2: away from its limits the counter is restored by an edge followed by
    the reverse edge: the two table entries are opposite and both steps are
    applied. *)
Theorem reverse_edge_restores_counter
    (h : rot_enc_handle_t) (rd1 rd2 : pin_reads) :
  typed_handle h -> 0 <= old_state h <= 3 ->
  get_state rd2 h = old_state h ->
  counter_min h < counter h < counter_max h ->
  exists h',
    decode_all [rd1; rd2] h = Ok h' /\
    counter h' = counter h /\ old_state h' = old_state h.
Proof.
  intros Hty Hold Hback Hroom.
  destruct (there_and_back h rd1 rd2 Hty Hold Hback)
    as (step & h1 & h2 & _ & Hrange & Hrun & Hc1 & Hc2 & Hmin & Hmax & Hold2).
  exists h2. split; [exact Hrun |]. split; [| exact Hold2].
  rewrite Hc2. unfold clamped in *. rewrite Hmin, Hmax, Hc1.
  repeat case_match; lia.
Qed.

Lemma reverse_edge_restores_counter_witness :
  exists h',
    decode_all [reads GPIO_PIN_SET GPIO_PIN_RESET; reads GPIO_PIN_RESET GPIO_PIN_RESET]
      example_handle = Ok h' /\
    counter h' = counter example_handle /\ old_state h' = old_state example_handle.
Proof.
  apply (reverse_edge_restores_counter example_handle
           (reads GPIO_PIN_SET GPIO_PIN_RESET) (reads GPIO_PIN_RESET GPIO_PIN_RESET)
           typed_example_handle).
  - simpl. lia.
  - reflexivity.
  - simpl. lia.
Defined.

(** X3: at a limit the same pair of edges is not neutral: with the counter at
    [counter_max] an up step is dropped and the reverse edge is applied,
    leaving the counter one below the limit; with the counter at
    [counter_min] a down step followed by its reverse leaves it one above. *)
Theorem reverse_edge_at_limit_drifts
    (h : rot_enc_handle_t) (rd1 rd2 : pin_reads) :
  typed_handle h -> 0 <= old_state h <= 3 ->
  get_state rd2 h = old_state h ->
  counter_min h < counter_max h ->
  exists h',
    decode_all [rd1; rd2] h = Ok h' /\
    (read_table (transition_code (old_state h) (get_state rd1 h)) = Ok 1 ->
     counter h = counter_max h -> counter h' = counter_max h - 1) /\
    (read_table (transition_code (old_state h) (get_state rd1 h)) = Ok (-1) ->
     counter h = counter_min h -> counter h' = counter_min h + 1).
Proof.
  intros Hty Hold Hback Hroom.
  destruct (there_and_back h rd1 rd2 Hty Hold Hback)
    as (step & h1 & h2 & Hstep & Hrange & Hrun & Hc1 & Hc2 & Hmin & Hmax & Hold2).
  exists h2. split; [exact Hrun |].
  rewrite Hstep, Hc2. unfold clamped in *. rewrite Hmin, Hmax, Hc1.
  split; intros [= ->] Hat; cbn; repeat case_match; lia.
Qed.

Lemma reverse_edge_at_limit_drifts_witness :
  exists h',
    decode_all [reads GPIO_PIN_SET GPIO_PIN_RESET; reads GPIO_PIN_RESET GPIO_PIN_RESET]
      handle_at_max = Ok h' /\
    (read_table (transition_code (old_state handle_at_max)
                   (get_state (reads GPIO_PIN_SET GPIO_PIN_RESET) handle_at_max)) = Ok 1 ->
     counter handle_at_max = counter_max handle_at_max ->
     counter h' = counter_max handle_at_max - 1) /\
    (read_table (transition_code (old_state handle_at_max)
                   (get_state (reads GPIO_PIN_SET GPIO_PIN_RESET) handle_at_max))
       = Ok (-1) ->
     counter handle_at_max = counter_min handle_at_max ->
     counter h' = counter_min handle_at_max + 1).
Proof.
  apply (reverse_edge_at_limit_drifts handle_at_max
           (reads GPIO_PIN_SET GPIO_PIN_RESET) (reads GPIO_PIN_RESET GPIO_PIN_RESET)).
  - split; vm_compute; split; discriminate.
  - simpl. lia.
  - reflexivity.
  - simpl. lia.
Defined.

(** ** What events leave alone *)

Lemma same_setup_refl (s : state) : same_setup s s.
Proof.
  split; [reflexivity |]. intros l.
  destruct (mem s !! l); constructor. apply same_config_refl.
Qed.

Lemma same_setup_trans (s1 s2 s3 : state) :
  same_setup s1 s2 -> same_setup s2 s3 -> same_setup s1 s3.
Proof.
  intros [Hr12 Hm12] [Hr23 Hm23]. split; [congruence |]. intros l.
  specialize (Hm12 l). specialize (Hm23 l).
  destruct Hm12 as [h1 h2 H12 |]; inversion Hm23; subst; constructor.
  eapply same_config_trans; eassumption.
Qed.

Lemma rot_enc_callback_same_setup
    (rd : pin_reads) (GPIO_Pin : Z) (s s' : state) :
  rot_enc_callback rd GPIO_Pin s = Ok s' -> same_setup s s'.
Proof.
  intros Hcb.
  destruct (rot_enc_callback_inv rd GPIO_Pin s s' Hcb)
    as (l & h & h' & _ & Hmem & -> & Hbranch).
  split; [reflexivity |]. intros l0. cbn.
  destruct (decide (l = l0)) as [<- | Hne].
  - rewrite lookup_insert_eq, Hmem. constructor.
    destruct Hbranch as [[_ ->] | [_ Hdec]];
      [split; reflexivity | exact (decode_phase_transition_same_config _ _ _ Hdec)].
  - rewrite lookup_insert_ne by exact Hne.
    destruct (mem s !! l0); constructor. apply same_config_refl.
Qed.

Lemma run_same_setup (evs : list event) (s s' : state) :
  run evs s = Ok s' -> same_setup s s'.
Proof.
  revert s. induction evs as [| ev evs IH]; intros s; cbn [run].
  - intros [= <-]. apply same_setup_refl.
  - unfold_result.
    destruct (rot_enc_callback (ev_reads ev) (ev_pin ev) s) as [s1 |] eqn:Hcb;
      [| discriminate].
    intros Hrun. eapply same_setup_trans;
      [exact (rot_enc_callback_same_setup _ _ _ _ Hcb) | exact (IH _ Hrun)].
Qed.

(** X4: no sequence of events touches the registry or the configuration of
    a handle: after the events the registry is the same array, the same
    handle objects exist, and each has the pins, ports, limits and reset
    value it had. *)
Theorem events_keep_registry_and_configuration
    (evs : list event) (s s' : state) :
  run evs s = Ok s' ->
  registered_handles s' = registered_handles s /\
  (forall l, mem s !! l = None <-> mem s' !! l = None) /\
  (forall l h h', mem s !! l = Some h -> mem s' !! l = Some h' ->
     same_config h h').
Proof.
  intros Hrun. destruct (run_same_setup evs s s' Hrun) as [Hregs Hmem].
  split; [exact Hregs |]. split.
  - intros l. specialize (Hmem l). inversion Hmem; split; congruence.
  - intros l h h' Hl Hl'. specialize (Hmem l). rewrite Hl, Hl' in Hmem.
    inversion Hmem; assumption.
Qed.

Lemma events_keep_registry_and_configuration_witness :
  exists s',
    run example_events example_state = Ok s' /\
    registered_handles s' = registered_handles example_state /\
    (forall l, mem example_state !! l = None <-> mem s' !! l = None) /\
    (forall l h h', mem example_state !! l = Some h -> mem s' !! l = Some h' ->
       same_config h h').
Proof.
  eexists. split; [reflexivity |].
  apply (events_keep_registry_and_configuration example_events example_state).
  reflexivity.
Defined.

(** X5: an event is handled on the one handle its pin resolves to: every
    other handle object is exactly as it was, counter and phase state
    included. *)
Theorem event_mutates_only_resolved_handle
    (rd : pin_reads) (GPIO_Pin : Z) (s s' : state) (l : loc) :
  determine_trigger GPIO_Pin s = Ok (Some l) ->
  rot_enc_callback rd GPIO_Pin s = Ok s' ->
  forall l', l' <> l -> mem s' !! l' = mem s !! l'.
Proof.
  intros Hres Hcb l' Hne.
  destruct (rot_enc_callback_inv rd GPIO_Pin s s' Hcb)
    as (l0 & h & h' & Hres' & _ & -> & _).
  rewrite Hres in Hres'. injection Hres' as <-.
  cbn. apply lookup_insert_ne. congruence.
Qed.

Lemma event_mutates_only_resolved_handle_witness :
  exists s',
    rot_enc_callback (reads GPIO_PIN_SET GPIO_PIN_RESET) 8 full_state = Ok s' /\
    forall l', l' <> 2%positive -> mem s' !! l' = mem full_state !! l'.
Proof.
  eexists. split; [reflexivity |].
  apply (event_mutates_only_resolved_handle
           (reads GPIO_PIN_SET GPIO_PIN_RESET) 8 full_state); reflexivity.
Defined.

(** ** Events on registered pins *)

Lemma determine_trigger_loop_complete
    (GPIO_Pin : Z) (s : state) (n index k : nat) (l : loc) (h : rot_enc_handle_t) :
  (index <= k < index + n)%nat ->
  registered_handles s !! k = Some (Some l) ->
  mem s !! l = Some h ->
  pin_matches GPIO_Pin h = true ->
  (forall j, (index <= j < k)%nat ->
     exists lj hj, registered_handles s !! j = Some (Some lj) /\ mem s !! lj = Some hj) ->
  exists l', determine_trigger_loop n index GPIO_Pin s = Ok (Some l').
Proof.
  revert index. induction n as [| n IH]; intros index Hk Hslot Hmem Hpin Hvalid; [lia |].
  cbn [determine_trigger_loop]. unfold read_slot.
  destruct (decide (index = k)) as [-> | Hne].
  - rewrite Hslot. unfold_result. cbn. rewrite Hmem, Hpin. eauto.
  - destruct (Hvalid index) as (lj & hj & -> & Hmj); [lia |].
    unfold_result. cbn. rewrite Hmj.
    destruct (pin_matches GPIO_Pin hj); [eauto |].
    apply IH; auto; [lia |]. intros j Hj. apply Hvalid. lia.
Qed.

(** In a sound state every slot up to a used one holds a valid pointer. *)
Lemma sound_state_prefix (s : state) (k : nat) (l : loc) :
  sound_state s ->
  registered_handles s !! k = Some (Some l) ->
  forall j, (j <= k)%nat ->
    exists lj hj,
      registered_handles s !! j = Some (Some lj) /\ mem s !! lj = Some hj /\
      0 <= old_state hj <= 3.
Proof.
  intros [Hlen Hpacked Hvalid] Hk j Hj.
  destruct (lookup_lt_is_Some_2 (registered_handles s) j) as [[lj |] Hslot].
  { apply lookup_lt_Some in Hk. lia. }
  - destruct (Hvalid lj (list_elem_of_lookup_2 _ _ _ Hslot)) as (hj & Hmj & Hold).
    eauto 6.
  - discriminate (Hpacked j k (Some l) Hj Hslot Hk).
Qed.

(** In a sound state the search for an owned pin ends at a handle. *)
Lemma determine_trigger_owned_pin (GPIO_Pin : Z) (s : state) :
  sound_state s -> owns_pin s GPIO_Pin ->
  exists l h,
    determine_trigger GPIO_Pin s = Ok (Some l) /\
    mem s !! l = Some h /\ 0 <= old_state h <= 3.
Proof.
  intros Hsound (l & h & Hreg & Hmem & Hpin).
  apply list_elem_of_lookup_1 in Hreg as [k Hk].
  destruct (determine_trigger_loop_complete GPIO_Pin s MAX_NUM_OF_ENCODERS 0 k l h)
    as [l' Hres]; auto.
  { apply lookup_lt_Some in Hk. rewrite (sound_length s Hsound) in Hk. lia. }
  { intros j Hj.
    destruct (sound_state_prefix s k l Hsound Hk j) as (lj & hj & ? & ? & _);
      [lia | eauto]. }
  destruct (determine_trigger_registered GPIO_Pin s l' Hres) as (Hreg' & h' & Hm' & _).
  destruct (sound_handles s Hsound l' Hreg') as (h'' & Hm'' & Hold).
  exists l', h''. auto.
Qed.

(** X6: in a sound state a pin owned by a registered handle resolves, with
    no fault, to the first registered handle that has the pin: every slot
    before it holds a handle without that pin. *)
Theorem owned_pin_resolves_to_first_match (GPIO_Pin : Z) (s : state) :
  sound_state s -> owns_pin s GPIO_Pin ->
  exists k l h,
    determine_trigger GPIO_Pin s = Ok (Some l) /\
    registered_handles s !! k = Some (Some l) /\
    mem s !! l = Some h /\ pin_matches GPIO_Pin h = true /\
    forall j, (j < k)%nat ->
      exists lj hj,
        registered_handles s !! j = Some (Some lj) /\ mem s !! lj = Some hj /\
        pin_matches GPIO_Pin hj = false.
Proof.
  intros Hsound (l & h & Hreg & Hmem & Hpin).
  apply list_elem_of_lookup_1 in Hreg as [k Hk].
  destruct (determine_trigger_loop_complete GPIO_Pin s MAX_NUM_OF_ENCODERS 0 k l h)
    as [l' Hres]; auto.
  { apply lookup_lt_Some in Hk. rewrite (sound_length s Hsound) in Hk. lia. }
  { intros j Hj.
    destruct (sound_state_prefix s k l Hsound Hk j) as (lj & hj & ? & ? & _);
      [lia | eauto]. }
  destruct (determine_trigger_loop_sound GPIO_Pin s _ _ _ Hres)
    as (k' & h' & _ & Hk' & Hm' & Hp' & Hskip).
  exists k', l', h'. repeat (split; [assumption |]).
  intros j Hj. destruct (Hskip j) as (p & Hp & lj & hj & -> & ? & ?); [lia |].
  eauto 6.
Qed.

Lemma sound_full_state : sound_state full_state.
Proof.
  split.
  - reflexivity.
  - intros i j p _ Hi. cbn in Hi.
    do 5 (destruct i as [| i]; [discriminate Hi |]). discriminate Hi.
  - intros l Hl. cbn in Hl.
    repeat (apply elem_of_cons in Hl as [[= ->] | Hl];
            [eexists; split; [reflexivity | cbn; lia] |]).
    apply elem_of_nil in Hl. contradiction.
Qed.

Lemma owned_pin_resolves_to_first_match_witness :
  exists k l h,
    determine_trigger 256 full_state = Ok (Some l) /\
    registered_handles full_state !! k = Some (Some l) /\
    mem full_state !! l = Some h /\ pin_matches 256 h = true /\
    forall j, (j < k)%nat ->
      exists lj hj,
        registered_handles full_state !! j = Some (Some lj) /\
        mem full_state !! lj = Some hj /\
        pin_matches 256 hj = false.
Proof.
  apply (owned_pin_resolves_to_first_match 256 full_state).
  - exact sound_full_state.
  - exists 3%positive, (wired 64 128 256).
    split; [| split; reflexivity].
    unfold registered. cbn. do 2 apply list_elem_of_further. apply list_elem_of_here.
Defined.

Lemma same_setup_owns_pin (GPIO_Pin : Z) (s s' : state) :
  same_setup s s' -> owns_pin s GPIO_Pin -> owns_pin s' GPIO_Pin.
Proof.
  intros [Hregs Hmem] (l & h & Hreg & Hl & Hpin).
  specialize (Hmem l). rewrite Hl in Hmem. inversion Hmem as [? h' Hcfg |]; subst.
  exists l, h'. rewrite Hregs.
  split; [exact Hreg |]. split; [congruence |].
  rewrite (same_config_pin_matches GPIO_Pin h h' Hcfg). exact Hpin.
Qed.

Lemma rot_enc_callback_sound (rd : pin_reads) (GPIO_Pin : Z) (s s' : state) :
  sound_state s -> rot_enc_callback rd GPIO_Pin s = Ok s' -> sound_state s'.
Proof.
  intros [Hlen Hpacked Hvalid] Hcb.
  destruct (rot_enc_callback_inv rd GPIO_Pin s s' Hcb)
    as (l & h & h' & Hres & Hmem & -> & Hbranch).
  split; cbn; [exact Hlen | exact Hpacked |].
  intros l0 Hl0. destruct (decide (l = l0)) as [<- | Hne].
  - exists h'. rewrite lookup_insert_eq. split; [reflexivity |].
    destruct Hbranch as [[_ ->] | [_ Hdec]].
    + destruct (Hvalid l Hl0) as (h0 & Hh0 & Hold). cbn. congruence.
    + exact (decode_phase_transition_old_state _ _ _ Hdec).
  - rewrite lookup_insert_ne by exact Hne. apply Hvalid, Hl0.
Qed.

(** X7: in a sound state the callback never faults on the pins of the
    registered encoders: every sequence of events whose pins are owned by
    registered handles is handled to the end, and the state stays sound. *)
Theorem events_on_owned_pins_complete (evs : list event) (s : state) :
  sound_state s ->
  Forall (fun ev => owns_pin s (ev_pin ev)) evs ->
  exists s', run evs s = Ok s' /\ sound_state s'.
Proof.
  revert s. induction evs as [| ev evs IH]; intros s Hsound Hpins; cbn [run].
  - exists s. auto.
  - apply Forall_cons in Hpins as [Hpin Hpins].
    destruct (determine_trigger_owned_pin (ev_pin ev) s Hsound Hpin)
      as (l & h & Hres & Hmem & Hold).
    destruct (rot_enc_callback_completes (ev_reads ev) (ev_pin ev) s l h Hres Hmem Hold)
      as [s1 Hcb].
    rewrite Hcb. unfold_result.
    apply IH; [exact (rot_enc_callback_sound _ _ _ _ Hsound Hcb) |].
    eapply Forall_impl; [exact Hpins |].
    intros ev' Hown. cbn in Hown.
    exact (same_setup_owns_pin _ s s1 (rot_enc_callback_same_setup _ _ _ _ Hcb) Hown).
Qed.

Lemma events_on_owned_pins_complete_witness :
  exists s',
    run [ {| ev_pin := 8; ev_reads := reads GPIO_PIN_SET GPIO_PIN_RESET |};
          {| ev_pin := 256; ev_reads := reads GPIO_PIN_SET GPIO_PIN_SET |};
          {| ev_pin := 16; ev_reads := reads GPIO_PIN_SET GPIO_PIN_SET |} ]
      full_state = Ok s' /\
    sound_state s'.
Proof.
  apply (events_on_owned_pins_complete _ full_state sound_full_state).
  repeat (apply Forall_cons; split; [| ]); [| | | apply Forall_nil; exact I].
  - exists 2%positive, (wired 8 16 32). split; [| split; reflexivity].
    unfold registered. cbn. apply list_elem_of_further, list_elem_of_here.
  - exists 3%positive, (wired 64 128 256). split; [| split; reflexivity].
    unfold registered. cbn. do 2 apply list_elem_of_further. apply list_elem_of_here.
  - exists 2%positive, (wired 8 16 32). split; [| split; reflexivity].
    unfold registered. cbn. apply list_elem_of_further, list_elem_of_here.
Defined.

(** ** Registration *)

Lemma registry_of_length (pre : list loc) :
  length (registry_of pre) = MAX_NUM_OF_ENCODERS.
Proof.
  unfold registry_of.
  rewrite length_app, length_fmap, length_take, length_replicate.
  destruct (Nat.le_ge_cases MAX_NUM_OF_ENCODERS (length pre));
    [rewrite Nat.min_l | rewrite Nat.min_r]; lia.
Qed.

Lemma registry_of_packed (pre : list loc) : packed (registry_of pre).
Proof.
  intros i j p Hij Hi Hj. unfold registry_of in *.
  set (used := take MAX_NUM_OF_ENCODERS pre) in *.
  destruct (decide (i < length (Some <$> used))%nat) as [Hlt | Hge].
  - rewrite lookup_app_l in Hi by exact Hlt.
    rewrite list_lookup_fmap in Hi. destruct (used !! i); discriminate Hi.
  - rewrite lookup_app_r in Hj by lia.
    apply lookup_replicate in Hj as [-> _]. reflexivity.
Qed.

Lemma take_take_app {A : Type} (n : nat) (l k : list A) :
  take n (take n l ++ k) = take n (l ++ k).
Proof.
  revert l. induction n as [| n IH]; intros [| x l]; cbn; try reflexivity.
  f_equal. apply IH.
Qed.

Lemma init_rotary_encoder_registry_of (pre : list loc) (l : loc)
    (m : gmap loc rot_enc_handle_t) :
  init_rotary_encoder (Some l) {| registered_handles := registry_of pre; mem := m |}
  = Ok (bool_decide (length pre < MAX_NUM_OF_ENCODERS)%nat,
        {| registered_handles := registry_of (pre ++ [l]); mem := m |}).
Proof.
  do 5 (destruct pre as [| ? pre]; [reflexivity |]).
  unfold init_rotary_encoder, registry_of. cbn [registered_handles mem].
  rewrite init_loop_full.
  - unfold_result. cbn.
    rewrite bool_decide_eq_false_2 by (unfold MAX_NUM_OF_ENCODERS; lia).
    rewrite !take_0. reflexivity.
  - intros j Hj. unfold MAX_NUM_OF_ENCODERS in Hj. cbn.
    do 5 (destruct j as [| j]; [eauto |]). lia.
Qed.

(** X8: any number of registrations from the empty registry: the first
    [MAX_NUM_OF_ENCODERS] calls return true and fill the slots in call
    order, every later call returns false, and the registry that results
    has its used slots first; pointers registered twice take two slots. *)
Theorem registrations_fill_slots_in_order
    (ls : list loc) (m : gmap loc rot_enc_handle_t) :
  register_all (Some <$> ls) {| registered_handles := initial_registry; mem := m |}
  = Ok ((fun i => bool_decide (i < MAX_NUM_OF_ENCODERS)%nat) <$> seq 0 (length ls),
        {| registered_handles := registry_of ls; mem := m |}) /\
  packed (registry_of ls) /\
  length (registry_of ls) = MAX_NUM_OF_ENCODERS /\
  (forall i l, (i < MAX_NUM_OF_ENCODERS)%nat -> ls !! i = Some l ->
     registry_of ls !! i = Some (Some l)).
Proof.
  split; [| split; [apply registry_of_packed | split; [apply registry_of_length |]]].
  - change initial_registry with (registry_of []).
    change ls with ([] ++ ls) at 3.
    change 0%nat with (length (@nil loc)) at 1.
    generalize (@nil loc) as pre. induction ls as [| l ls IH]; intros pre.
    + cbn. rewrite app_nil_r. reflexivity.
    + cbn [fmap list_fmap register_all length seq].
      rewrite init_rotary_encoder_registry_of. unfold_result. cbn match.
      specialize (IH (pre ++ [l])). rewrite <- app_assoc in IH. cbn [app] in IH.
      rewrite IH. rewrite length_app. cbn [length].
      replace (length pre + 1)%nat with (S (length pre)) by lia. reflexivity.
  - intros i l Hi Hl. unfold registry_of.
    rewrite lookup_app_l
      by (rewrite length_fmap, length_take; apply lookup_lt_Some in Hl; lia).
    rewrite list_lookup_fmap, lookup_take_lt by exact Hi. rewrite Hl. reflexivity.
Qed.

(** X9: registering a NULL pointer changes nothing and is still reported as
    a success whenever a slot is unused: the NULL is written over the NULL
    of the first unused slot. *)
Theorem null_registration_reports_success (s : state) :
  length (registered_handles s) = MAX_NUM_OF_ENCODERS ->
  exists b,
    init_rotary_encoder NULL s = Ok (b, s) /\
    (b = true <-> NULL ∈ registered_handles s).
Proof.
  intros Hlen.
  destruct (decide (NULL ∈ registered_handles s)) as [Hin | Hfull].
  - exists true. split; [| tauto].
    destruct (first_free_slot _ Hin) as (index & Hfree & Hbefore).
    unfold init_rotary_encoder.
    rewrite (init_loop_first_free MAX_NUM_OF_ENCODERS 0 index); auto.
    + unfold_result. cbn. rewrite list_insert_id by exact Hfree.
      rewrite state_eta. reflexivity.
    + apply lookup_lt_Some in Hfree. lia.
    + intros j Hj. apply Hbefore. lia.
  - exists false. split; [| split; [discriminate | contradiction]].
    unfold init_rotary_encoder. rewrite init_loop_full.
    + unfold_result. cbn. rewrite state_eta. reflexivity.
    + intros j Hj. apply occupied_slots; [exact Hfull | lia].
Qed.

Lemma null_registration_reports_success_witness :
  exists b,
    init_rotary_encoder NULL example_state = Ok (b, example_state) /\
    (b = true <-> NULL ∈ registered_handles example_state).
Proof.
  apply (null_registration_reports_success example_state). reflexivity.
Defined.

(** The registry after a registration that found slot [index] unused. *)
Lemma init_rotary_encoder_free (handle_ptr : ptr) (s : state) (index : nat) :
  registered_handles s !! index = Some NULL ->
  (forall j, (j < index)%nat -> registered_handles s !! j <> Some NULL) ->
  (index < MAX_NUM_OF_ENCODERS)%nat ->
  init_rotary_encoder handle_ptr s =
  Ok (true, {| registered_handles := <[index := handle_ptr]> (registered_handles s);
               mem := mem s |}).
Proof.
  intros Hfree Hbefore Hindex. unfold init_rotary_encoder.
  rewrite (init_loop_first_free MAX_NUM_OF_ENCODERS 0 index); auto; [lia |].
  intros j Hj. apply Hbefore. lia.
Qed.

Lemma sound_state_register (s : state) (l : loc) (h : rot_enc_handle_t) (index : nat) :
  sound_state s ->
  mem s !! l = Some h -> 0 <= old_state h <= 3 ->
  registered_handles s !! index = Some NULL ->
  (forall j, (j < index)%nat -> registered_handles s !! j <> Some NULL) ->
  sound_state {| registered_handles := <[index := Some l]> (registered_handles s);
                 mem := mem s |}.
Proof.
  intros [Hlen Hpacked Hvalid] Hmem Hold Hfree Hbefore.
  split; cbn [registered_handles mem].
  - rewrite length_insert. exact Hlen.
  - intros i j p Hij Hi Hj.
    destruct (decide (i = index)) as [-> | Hi'].
    { rewrite list_lookup_insert_eq in Hi by (apply lookup_lt_Some in Hfree; lia).
      discriminate Hi. }
    rewrite list_lookup_insert_ne in Hi by congruence.
    assert (index < i)%nat.
    { destruct (decide (i < index)%nat) as [Hlt |]; [| lia].
      exfalso. exact (Hbefore i Hlt Hi). }
    rewrite list_lookup_insert_ne in Hj by lia.
    exact (Hpacked i j p Hij Hi Hj).
  - intros l0 Hl0. unfold registered in Hl0.
    apply list_elem_of_lookup_1 in Hl0 as [i Hi].
    destruct (decide (i = index)) as [-> | Hne].
    + rewrite list_lookup_insert_eq in Hi by (apply lookup_lt_Some in Hfree; lia).
      injection Hi as <-. eauto.
    + rewrite list_lookup_insert_ne in Hi by congruence.
      apply Hvalid. exact (list_elem_of_lookup_2 _ _ _ Hi).
Qed.

(** X10: registration followed by resolution: in a sound state with an unused
    slot, registering a handle makes each pin of it that no earlier
    registered handle has resolve to that handle, and the state stays
    sound. *)
Theorem registered_handle_is_resolved
    (GPIO_Pin : Z) (s : state) (l : loc) (h : rot_enc_handle_t) :
  sound_state s ->
  NULL ∈ registered_handles s ->
  mem s !! l = Some h -> 0 <= old_state h <= 3 ->
  pin_matches GPIO_Pin h = true ->
  ~ owns_pin s GPIO_Pin ->
  exists s',
    init_rotary_encoder (Some l) s = Ok (true, s') /\
    determine_trigger GPIO_Pin s' = Ok (Some l) /\
    sound_state s'.
Proof.
  intros Hsound Hin Hmem Hold Hpin Hnew.
  destruct (first_free_slot _ Hin) as (index & Hfree & Hbefore).
  assert (Hindex : (index < MAX_NUM_OF_ENCODERS)%nat).
  { apply lookup_lt_Some in Hfree. rewrite (sound_length s Hsound) in Hfree. lia. }
  eexists. split; [exact (init_rotary_encoder_free _ s index Hfree Hbefore Hindex) |].
  split; [| exact (sound_state_register s l h index Hsound Hmem Hold Hfree Hbefore)].
  apply (determine_trigger_first_match GPIO_Pin _ index l h); auto.
  - cbn. apply list_lookup_insert_eq. apply lookup_lt_Some in Hfree. exact Hfree.
  - intros j Hj. cbn [registered_handles mem].
    rewrite list_lookup_insert_ne by lia.
    destruct (lookup_lt_is_Some_2 (registered_handles s) j) as [[lj |] Hslot].
    { apply lookup_lt_Some in Hfree. lia. }
    + exists (Some lj). split; [exact Hslot |].
      destruct (sound_handles s Hsound lj (list_elem_of_lookup_2 _ _ _ Hslot))
        as (hj & Hmj & _).
      exists lj, hj. split; [reflexivity |]. split; [exact Hmj |].
      destruct (pin_matches GPIO_Pin hj) eqn:Hpj; [| reflexivity].
      exfalso. apply Hnew. exists lj, hj.
      split; [exact (list_elem_of_lookup_2 _ _ _ Hslot) | auto].
    + exfalso. exact (Hbefore j Hj Hslot).
Qed.

Lemma sound_initial_state (m : gmap loc rot_enc_handle_t) :
  sound_state {| registered_handles := initial_registry; mem := m |}.
Proof.
  split; cbn [registered_handles mem].
  - reflexivity.
  - intros i j p _ _ Hj. apply lookup_replicate in Hj as [-> _]. reflexivity.
  - intros l Hl. unfold registered in Hl.
    apply elem_of_replicate in Hl as [Hl _]. discriminate Hl.
Qed.

Lemma registered_handle_is_resolved_witness :
  exists s',
    init_rotary_encoder (Some 1%positive)
      {| registered_handles := initial_registry; mem := mem example_state |}
      = Ok (true, s') /\
    determine_trigger 2 s' = Ok (Some 1%positive) /\
    sound_state s'.
Proof.
  apply (registered_handle_is_resolved 2
           {| registered_handles := initial_registry; mem := mem example_state |}
           1%positive example_handle).
  - apply sound_initial_state.
  - apply list_elem_of_here.
  - reflexivity.
  - simpl. lia.
  - reflexivity.
  - intros (l & h & Hreg & _). unfold registered in Hreg. cbn in Hreg.
    repeat (apply elem_of_cons in Hreg as [Hreg | Hreg]; [discriminate Hreg |]).
    apply elem_of_nil in Hreg. contradiction.
Defined.

(** X11: registering a further encoder does not redirect the pins of those
    registered before it: a pin that resolved to a handle resolves to the
    same handle after the registration, whether it succeeded or not. *)
Theorem registration_keeps_resolution
    (GPIO_Pin : Z) (s : state) (l0 : loc) (handle_ptr : ptr) :
  length (registered_handles s) = MAX_NUM_OF_ENCODERS ->
  determine_trigger GPIO_Pin s = Ok (Some l0) ->
  exists b s',
    init_rotary_encoder handle_ptr s = Ok (b, s') /\
    determine_trigger GPIO_Pin s' = Ok (Some l0).
Proof.
  intros Hlen Hres.
  destruct (determine_trigger_loop_sound GPIO_Pin s _ _ _ Hres)
    as (k & h & Hk & Hslot & Hmem & Hpin & Hskip).
  destruct (decide (NULL ∈ registered_handles s)) as [Hin | Hfull].
  - destruct (first_free_slot _ Hin) as (index & Hfree & Hbefore).
    assert (Hindex : (index < MAX_NUM_OF_ENCODERS)%nat).
    { apply lookup_lt_Some in Hfree. lia. }
    assert (Hlater : (k < index)%nat).
    { destruct (decide (k < index)%nat) as [| Hge]; [assumption |].
      exfalso. destruct (decide (index = k)) as [-> | Hne]; [congruence |].
      destruct (Hskip index) as (p & Hp & lp & hp & -> & _); [lia |]. congruence. }
    exists true. eexists.
    split; [exact (init_rotary_encoder_free _ s index Hfree Hbefore Hindex) |].
    apply (determine_trigger_first_match GPIO_Pin _ k l0 h); auto; cbn; [lia | |].
    + rewrite list_lookup_insert_ne by lia. exact Hslot.
    + intros j Hj. rewrite list_lookup_insert_ne by lia.
      destruct (Hskip j) as (p & Hp & Hsk); [lia |]. eauto.
  - exists false, s. split; [| exact Hres].
    unfold init_rotary_encoder. rewrite init_loop_full.
    + unfold_result. cbn. rewrite state_eta. reflexivity.
    + intros j Hj. apply occupied_slots; [exact Hfull | lia].
Qed.

Lemma registration_keeps_resolution_witness :
  exists b s',
    init_rotary_encoder (Some 2%positive) example_state = Ok (b, s') /\
    determine_trigger 2 s' = Ok (Some 1%positive).
Proof.
  apply (registration_keeps_resolution 2 example_state 1%positive (Some 2%positive));
    reflexivity.
Defined.

(** ** A phase state that was never set *)

Lemma transition_code_uint8_table :
  forallb (fun o =>
    forallb (fun n =>
      transition_code (Z.of_nat o) (Z.of_nat n)
      =? (Z.of_nat o mod 64) * 4 + Z.of_nat n) (seq 0 4)) (seq 0 256) = true.
Proof. vm_compute. reflexivity. Qed.

Lemma transition_code_uint8 (old new : Z) :
  is_uint8 old -> 0 <= new <= 3 ->
  transition_code old new = (old mod 64) * 4 + new.
Proof.
  intros Ho Hn. unfold is_uint8 in Ho.
  pose proof transition_code_uint8_table as Htab.
  rewrite forallb_forall in Htab.
  specialize (Htab (Z.to_nat old)). rewrite forallb_forall in Htab.
  specialize (Htab ltac:(apply in_seq; lia) (Z.to_nat new) ltac:(apply in_seq; lia)).
  rewrite !Z2Nat.id in Htab by lia. apply Z.eqb_eq in Htab. exact Htab.
Qed.

Lemma read_table_outside (code : Z) : 16 <= code -> read_table code = Fault OutOfBounds.
Proof.
  intros Hc. unfold read_table.
  rewrite lookup_ge_None_2; [reflexivity |]. cbn. lia.
Qed.

(** X12: the decode step relies on [old_state] being a 2-bit value.  With any
    other byte in it the transition code is [(old_state mod 64) * 4 +
    new_state]: the step reads past the 16 entries of the table when
    [old_state mod 64] is 4 or more, and otherwise completes and leaves a
    2-bit [old_state] behind. *)
Theorem stale_old_state_reads_outside_table
    (rd : pin_reads) (h : rot_enc_handle_t) :
  is_uint8 (old_state h) ->
  transition_code (old_state h) (get_state rd h)
    = (old_state h mod 64) * 4 + get_state rd h /\
  (4 <= old_state h mod 64 ->
   decode_phase_transition rd h = Fault OutOfBounds) /\
  (old_state h mod 64 < 4 ->
   exists h', decode_phase_transition rd h = Ok h' /\ 0 <= old_state h' <= 3).
Proof.
  intros Hty. pose proof (get_state_range rd h) as Hnew.
  pose proof (transition_code_uint8 _ _ Hty Hnew) as Hcode.
  split; [exact Hcode |]. rewrite decode_phase_transition_unfold, Hcode. split.
  - intros Hbig. rewrite read_table_outside by lia. reflexivity.
  - intros Hsmall.
    destruct (read_table_in_range ((old_state h mod 64) * 4 + get_state rd h))
      as (step & -> & _).
    { pose proof (Z.mod_pos_bound (old_state h) 64). lia. }
    eexists. split; [reflexivity |]. cbn. exact Hnew.
Qed.

Lemma stale_old_state_reads_outside_table_witness :
  transition_code (old_state (set_old_state 7 example_handle))
    (get_state (reads GPIO_PIN_SET GPIO_PIN_RESET) (set_old_state 7 example_handle))
    = (old_state (set_old_state 7 example_handle) mod 64) * 4
      + get_state (reads GPIO_PIN_SET GPIO_PIN_RESET) (set_old_state 7 example_handle) /\
  (4 <= old_state (set_old_state 7 example_handle) mod 64 ->
   decode_phase_transition (reads GPIO_PIN_SET GPIO_PIN_RESET)
     (set_old_state 7 example_handle) = Fault OutOfBounds) /\
  (old_state (set_old_state 7 example_handle) mod 64 < 4 ->
   exists h',
     decode_phase_transition (reads GPIO_PIN_SET GPIO_PIN_RESET)
       (set_old_state 7 example_handle) = Ok h' /\
     0 <= old_state h' <= 3).
Proof.
  apply (stale_old_state_reads_outside_table
           (reads GPIO_PIN_SET GPIO_PIN_RESET) (set_old_state 7 example_handle)).
  unfold is_uint8. simpl. lia.
Defined.

(** * Properties of the log system *)

(** ** Digits *)

Lemma digit_value_digit_char (d : Z) :
  0 <= d < 16 -> digit_value (digit_char d) = d.
Proof.
  intros Hd.
  assert (H : exists n, (n < 16)%nat /\ d = Z.of_nat n)
    by (exists (Z.to_nat d); lia).
  destruct H as (n & Hn & ->).
  do 16 (destruct n as [| n]; [reflexivity |]). lia.
Qed.

Lemma digit_char_not_NUL (d : Z) : 0 <= d < 16 -> digit_char d <> NUL.
Proof.
  intros Hd.
  assert (H : exists n, (n < 16)%nat /\ d = Z.of_nat n)
    by (exists (Z.to_nat d); lia).
  destruct H as (n & Hn & ->).
  do 16 (destruct n as [| n]; [discriminate |]). lia.
Qed.

Lemma digits_from_acc (base : Z) (fuel : nat) (val : Z) (acc : list ascii) :
  digits_from base fuel val acc = digits_from base fuel val [] ++ acc.
Proof.
  revert val acc. induction fuel as [| fuel IH]; intros val acc; cbn; [reflexivity |].
  destruct (val / base =? 0); [reflexivity |].
  rewrite (IH _ (_ :: acc)), (IH _ [_]), <- app_assoc. reflexivity.
Qed.

Lemma digits_from_step (base : Z) (fuel : nat) (val : Z) :
  digits_from base (S fuel) val [] =
  (if val / base =? 0 then [] else digits_from base fuel (val / base) [])
  ++ [digit_char (val mod base)].
Proof.
  cbn. destruct (val / base =? 0); [reflexivity |]. apply digits_from_acc.
Qed.

Lemma parse_digits_snoc (base : Z) (cs : list ascii) (c : ascii) :
  parse_digits base (cs ++ [c]) = parse_digits base cs * base + digit_value c.
Proof. unfold parse_digits. rewrite fold_left_app. reflexivity. Qed.

Section Digits.

Variable base : Z.
Hypothesis base_range : 2 <= base <= 16.

Lemma digits_from_parse (fuel : nat) (val : Z) :
  0 <= val < base ^ Z.of_nat fuel ->
  parse_digits base (digits_from base fuel val []) = val.
Proof.
  revert val. induction fuel as [| fuel IH]; intros val Hval.
  - cbn in *. assert (val = 0) by lia. subst. reflexivity.
  - rewrite digits_from_step, parse_digits_snoc.
    rewrite digit_value_digit_char
      by (pose proof (Z.mod_pos_bound val base); lia).
    rewrite Nat2Z.inj_succ, Z.pow_succ_r in Hval by lia.
    destruct (Z.eqb_spec (val / base) 0) as [Hzero | Hnz].
    + cbn. rewrite (Z.div_mod val base) at 2 by lia. lia.
    + rewrite IH.
      * rewrite (Z.div_mod val base) at 3 by lia. lia.
      * split; [apply Z.div_pos; lia |].
        apply Z.div_lt_upper_bound; lia.
Qed.

Lemma digits_from_length (fuel : nat) (k : nat) (val : Z) :
  (1 <= k)%nat ->
  0 <= val < base ^ Z.of_nat k ->
  (1 <= length (digits_from base fuel val []) <= k)%nat \/ fuel = O.
Proof.
  revert k val. induction fuel as [| fuel IH]; intros k val Hk Hval; [auto |].
  left. rewrite digits_from_step, length_app. cbn [length].
  destruct (Z.eqb_spec (val / base) 0) as [Hzero | Hnz]; [cbn; lia |].
  destruct k as [| k]; [lia |].
  rewrite Nat2Z.inj_succ, Z.pow_succ_r in Hval by lia.
  assert (Hdiv : 0 < val / base < base ^ Z.of_nat k).
  { split; [pose proof (Z.div_pos val base); lia |].
    apply Z.div_lt_upper_bound; lia. }
  destruct k as [| k]; [cbn in Hdiv; lia |].
  destruct (IH (S k) (val / base)) as [Hlen | ->]; [lia | lia | lia | cbn; lia].
Qed.

Lemma digits_from_no_NUL (fuel : nat) (val : Z) :
  Forall (fun c => c <> NUL) (digits_from base fuel val []).
Proof.
  revert val. induction fuel as [| fuel IH]; intros val; [constructor |].
  rewrite digits_from_step. apply Forall_app. split.
  - destruct (val / base =? 0); [constructor | apply IH].
  - constructor; [| constructor].
    apply digit_char_not_NUL. pose proof (Z.mod_pos_bound val base). lia.
Qed.

End Digits.

(** ** Buffers *)

Lemma buffer_string_terminated (cs : list ascii) (rest : list (option ascii)) :
  Forall (fun c => c <> NUL) cs ->
  buffer_string ((Some <$> cs) ++ Some NUL :: rest) = Some cs.
Proof.
  induction 1 as [| c cs Hc _ IH]; cbn.
  - reflexivity.
  - apply Ascii.eqb_neq in Hc. rewrite Hc.
    cbn in IH. rewrite IH. reflexivity.
Qed.

Lemma snprintf_fits (buf : list (option ascii)) (n : nat) (text : list ascii) :
  (length text < n)%nat ->
  Forall (fun c => c <> NUL) text ->
  buffer_string (snprintf buf n text) = Some text.
Proof.
  intros Hlen Hnul. unfold snprintf.
  rewrite take_ge by lia. rewrite <- app_assoc. cbn [app].
  apply buffer_string_terminated. exact Hnul.
Qed.

(** ** Numbers in decimal and hexadecimal *)

Lemma format_unsigned_facts (base : Z) (k : nat) (val : Z) :
  2 <= base <= 16 -> (1 <= k <= 32)%nat ->
  0 <= val < base ^ Z.of_nat k ->
  parse_digits base (format_unsigned base val) = val /\
  (1 <= length (format_unsigned base val) <= k)%nat /\
  Forall (fun c => c <> NUL) (format_unsigned base val).
Proof.
  intros Hbase Hk Hval. unfold format_unsigned.
  split; [| split].
  - apply digits_from_parse; [exact Hbase |].
    split; [lia |]. eapply Z.lt_le_trans; [apply Hval |].
    apply Z.pow_le_mono_r; lia.
  - destruct (digits_from_length base Hbase 32 k val) as [Hlen | Hfuel];
      [lia | exact Hval | exact Hlen | discriminate Hfuel].
  - apply digits_from_no_NUL. exact Hbase.
Qed.

Lemma transmitted_HAL_UART_Transmit (data : list ascii) (st : log_state) :
  transmitted (HAL_UART_Transmit data st) = transmitted st ++ data.
Proof.
  unfold transmitted. cbn. rewrite fmap_app, concat_app. cbn.
  rewrite app_nil_r. reflexivity.
Qed.

Lemma print_unsigned_decimal (val : Z) (st : log_state) :
  is_uint32 val ->
  print_unsigned_value_with_format val DECIMAL st
  = Some (HAL_UART_Transmit (format_unsigned 10 val) st).
Proof.
  intros Hval. unfold is_uint32 in Hval.
  destruct (format_unsigned_facts 10 10 val) as (_ & Hlen & Hnul); [lia | lia | lia |].
  unfold print_unsigned_value_with_format. cbn [N.eqb DECIMAL Pos.eqb].
  rewrite snprintf_fits; [reflexivity | unfold DIGITS_IN_DEC_32_T; lia | exact Hnul].
Qed.

Lemma print_unsigned_hexadecimal (val : Z) (st : log_state) :
  is_uint32 val ->
  print_unsigned_value_with_format val HEXADECIMAL st
  = Some (HAL_UART_Transmit (format_unsigned 16 val)
            (HAL_UART_Transmit hex_prefix st)).
Proof.
  intros Hval. unfold is_uint32 in Hval.
  destruct (format_unsigned_facts 16 8 val) as (_ & Hlen & Hnul); [lia | lia | lia |].
  unfold print_unsigned_value_with_format.
  cbn [N.eqb DECIMAL HEXADECIMAL Pos.eqb].
  rewrite snprintf_fits; [reflexivity | unfold DIGITS_IN_HEX_32_T; lia | exact Hnul].
Qed.

(** X13: a 32-bit unsigned value is printed in full in decimal and in
    hexadecimal: the 11 and 9 byte limits given to [snprintf] never cut a
    digit, the UART is given 1 to 10 decimal digits, or [0x] and 1 to 8
    hexadecimal digits, and the digits read back as the value. *)
Theorem unsigned_value_digits_read_back (val : Z) (st : log_state) :
  is_uint32 val ->
  exists dec hex,
    print_unsigned_value_with_format val DECIMAL st
      = Some (HAL_UART_Transmit dec st) /\
    print_unsigned_value_with_format val HEXADECIMAL st
      = Some (HAL_UART_Transmit hex (HAL_UART_Transmit (c_str "0x") st)) /\
    parse_digits 10 dec = val /\ parse_digits 16 hex = val /\
    (1 <= length dec <= DIGITS_IN_DEC_32_T)%nat /\
    (1 <= length hex <= DIGITS_IN_HEX_32_T)%nat.
Proof.
  intros Hval. pose proof Hval as Hrange. unfold is_uint32 in Hrange.
  destruct (format_unsigned_facts 10 10 val) as (Hp10 & Hl10 & _); [lia | lia | lia |].
  destruct (format_unsigned_facts 16 8 val) as (Hp16 & Hl16 & _); [lia | lia | lia |].
  exists (format_unsigned 10 val), (format_unsigned 16 val).
  split; [exact (print_unsigned_decimal val st Hval) |].
  split; [exact (print_unsigned_hexadecimal val st Hval) |].
  auto.
Qed.

Lemma unsigned_value_digits_read_back_witness :
  exists dec hex,
    print_unsigned_value_with_format 4294967295 DECIMAL initial_log_state
      = Some (HAL_UART_Transmit dec initial_log_state) /\
    print_unsigned_value_with_format 4294967295 HEXADECIMAL initial_log_state
      = Some (HAL_UART_Transmit hex
                (HAL_UART_Transmit (c_str "0x") initial_log_state)) /\
    parse_digits 10 dec = 4294967295 /\ parse_digits 16 hex = 4294967295 /\
    (1 <= length dec <= DIGITS_IN_DEC_32_T)%nat /\
    (1 <= length hex <= DIGITS_IN_HEX_32_T)%nat.
Proof.
  apply (unsigned_value_digits_read_back 4294967295 initial_log_state).
  unfold is_uint32. lia.
Defined.

(** ** Numbers in binary *)

Lemma land_bit_mask (val : Z) (bit : nat) :
  (bit < 32)%nat ->
  negb (Z.land val (to_uint32 (Z.shiftl 1 (Z.of_nat bit))) =? 0)
  = Z.testbit val (Z.of_nat bit).
Proof.
  intros Hbit. unfold to_uint32, wrap_unsigned.
  rewrite Z.shiftl_1_l.
  rewrite Z.mod_small
    by (split; [apply Z.pow_nonneg; lia | apply Z.pow_lt_mono_r; lia]).
  assert (Hland : Z.land val (2 ^ Z.of_nat bit)
                  = if Z.testbit val (Z.of_nat bit) then 2 ^ Z.of_nat bit else 0).
  { apply Z.bits_inj'. intros n Hn.
    rewrite Z.land_spec, Z.pow2_bits_eqb by lia.
    destruct (Z.eqb_spec (Z.of_nat bit) n) as [<- | Hne].
    - destruct (Z.testbit val (Z.of_nat bit)); cbn.
      + rewrite Z.pow2_bits_true by lia. reflexivity.
      + rewrite Z.bits_0. reflexivity.
    - rewrite andb_false_r.
      destruct (Z.testbit val (Z.of_nat bit)).
      + rewrite Z.pow2_bits_false by lia. reflexivity.
      + rewrite Z.bits_0. reflexivity. }
  rewrite Hland. destruct (Z.testbit val (Z.of_nat bit)); [| reflexivity].
  assert (0 < 2 ^ Z.of_nat bit) by (apply Z.pow_pos_nonneg; lia).
  destruct (Z.eqb_spec (2 ^ Z.of_nat bit) 0); [lia | reflexivity].
Qed.

Lemma binary_digits_succ (n : nat) (val : Z) :
  binary_digits (S n) val
  = (if Z.testbit val (Z.of_nat n) then "1"%char else "0"%char)
    :: binary_digits n val.
Proof.
  unfold binary_digits. cbn [seq fmap list_fmap].
  replace (S n - 1 - 0)%nat with n by lia. f_equal.
  rewrite <- seq_shift, <- list_fmap_compose.
  apply list_fmap_ext. intros i x _. cbn.
  replace (n - 0 - S x)%nat with (n - 1 - x)%nat by lia. reflexivity.
Qed.

(** The loop fills the first [n] bytes when it starts at bit [32 - n]. *)
Lemma binary_loop_fills (n : nat) (val : Z) (buf : list (option ascii)) :
  (n <= 32)%nat -> (32 < length buf)%nat ->
  binary_loop n (32 - n) val buf =
  ((fun i => Some (if Z.testbit val (Z.of_nat (31 - i))
                   then "1"%char else "0"%char)) <$> seq 0 n)
  ++ drop n buf.
Proof.
  revert buf. induction n as [| n IH]; intros buf Hn Hlen.
  - cbn. rewrite drop_0. reflexivity.
  - cbn [binary_loop]. rewrite land_bit_mask by lia.
    replace (S (32 - S n)) with (32 - n)%nat by lia.
    unfold DIGITS_IN_BIN_32_T.
    replace (32 - (32 - S n) - 1)%nat with n by lia.
    rewrite IH by (rewrite ?length_insert; lia).
    rewrite seq_S, fmap_app, <- app_assoc. cbn [fmap list_fmap plus app].
    replace (32 - S n)%nat with (31 - n)%nat by lia.
    f_equal.
    rewrite insert_take_drop by lia.
    rewrite drop_app_length' by (rewrite length_take; lia). reflexivity.
Qed.

Lemma binary_buffer_string (val : Z) :
  buffer_string
    (<[DIGITS_IN_BIN_32_T := Some NUL]>
       (binary_loop DIGITS_IN_BIN_32_T 0 val (replicate num_string_size None)))
  = Some (binary_digits 32 val).
Proof.
  unfold DIGITS_IN_BIN_32_T, num_string_size.
  rewrite (binary_loop_fills 32 val) by (rewrite ?length_replicate; lia).
  rewrite insert_app_r_alt by (rewrite length_fmap, length_seq; lia).
  rewrite length_fmap, length_seq.
  change (<[(32 - 32)%nat := Some NUL]> (drop 32 (replicate 33 None)))
    with [Some NUL].
  assert (Hfill :
    ((fun i => Some (if Z.testbit val (Z.of_nat (31 - i))
                     then "1"%char else "0"%char)) <$> seq 0 32)
    = Some <$> binary_digits 32 val).
  { unfold binary_digits. rewrite <- list_fmap_compose.
    apply list_fmap_ext. intros i x _. reflexivity. }
  rewrite Hfill, buffer_string_terminated; [reflexivity |].
  unfold binary_digits. apply Forall_fmap, Forall_forall. intros i _. cbn.
  destruct (Z.testbit val _); discriminate.
Qed.

Lemma parse_digits_cons (base : Z) (c : ascii) (cs : list ascii) :
  parse_digits base (c :: cs)
  = digit_value c * base ^ Z.of_nat (length cs) + parse_digits base cs.
Proof.
  unfold parse_digits. cbn [fold_left]. rewrite Z.mul_0_l, Z.add_0_l.
  generalize (digit_value c) as acc. 
  induction cs as [| d cs IH] using rev_ind; intros acc.
  - cbn. lia.
  - rewrite !fold_left_app. cbn [fold_left]. rewrite IH.
    rewrite length_app. cbn [length]. 
    rewrite Nat2Z.inj_add, Z.pow_add_r by lia. 
    change (Z.of_nat 1) with 1. rewrite Z.pow_1_r. lia.
Qed.

Lemma binary_digits_length (n : nat) (val : Z) : length (binary_digits n val) = n.
Proof. unfold binary_digits. rewrite length_fmap, length_seq. reflexivity. Qed.

Lemma binary_digits_parse (n : nat) (val : Z) :
  parse_digits 2 (binary_digits n val) = val mod 2 ^ Z.of_nat n.
Proof.
  induction n as [| n IH].
  - cbn. rewrite Z.mod_1_r. reflexivity.
  - rewrite binary_digits_succ, parse_digits_cons, IH, binary_digits_length.
    rewrite Nat2Z.inj_succ, Z.pow_succ_r by lia.
    rewrite (Z.mul_comm 2), Z.rem_mul_r by (try apply Z.pow_nonzero; lia).
    rewrite <- Z.testbit_spec' by lia.
    destruct (Z.testbit val (Z.of_nat n)); cbn [Z.b2z]; 
      change (digit_value "1") with 1; change (digit_value "0") with 0; lia.
Qed.

(** X14: in binary every 32-bit unsigned value is printed as [0b] followed by
    exactly 32 characters [0] or [1], most significant bit first, that
    read back as the value. *)
Theorem unsigned_value_binary_reads_back (val : Z) (st : log_state) :
  is_uint32 val ->
  exists bits,
    print_unsigned_value_with_format val BINARY st
      = Some (HAL_UART_Transmit bits (HAL_UART_Transmit (c_str "0b") st)) /\
    length bits = DIGITS_IN_BIN_32_T /\
    Forall (fun c => c = "0"%char \/ c = "1"%char) bits /\
    (forall i, (i < 32)%nat ->
       bits !! i = Some (if Z.testbit val (Z.of_nat (31 - i))
                         then "1"%char else "0"%char)) /\
    parse_digits 2 bits = val.
Proof.
  intros Hval. exists (binary_digits 32 val).
  split; [| split; [apply binary_digits_length | split; [| split]]].
  - unfold print_unsigned_value_with_format.
    cbn [N.eqb DECIMAL HEXADECIMAL BINARY Pos.eqb].
    rewrite binary_buffer_string. reflexivity.
  - unfold binary_digits. apply Forall_fmap, Forall_forall. intros i _. cbn.
    destruct (Z.testbit val _); auto.
  - intros i Hi. unfold binary_digits.
    rewrite list_lookup_fmap, lookup_seq_lt by exact Hi. cbn.
    replace (32 - 1 - i)%nat with (31 - i)%nat by lia. reflexivity.
  - rewrite binary_digits_parse. unfold is_uint32 in Hval.
    apply Z.mod_small. exact Hval.
Qed.

Lemma unsigned_value_binary_reads_back_witness :
  exists bits,
    print_unsigned_value_with_format 2863311530 BINARY initial_log_state
      = Some (HAL_UART_Transmit bits
                (HAL_UART_Transmit (c_str "0b") initial_log_state)) /\
    length bits = DIGITS_IN_BIN_32_T /\
    Forall (fun c => c = "0"%char \/ c = "1"%char) bits /\
    (forall i, (i < 32)%nat ->
       bits !! i = Some (if Z.testbit 2863311530 (Z.of_nat (31 - i))
                         then "1"%char else "0"%char)) /\
    parse_digits 2 bits = 2863311530.
Proof.
  apply (unsigned_value_binary_reads_back 2863311530 initial_log_state).
  unfold is_uint32. lia.
Defined.

(** ** Signed numbers *)

Lemma to_uint32_id (z : Z) : is_uint32 z -> to_uint32 z = z.
Proof. intros Hz. apply Z.mod_small. exact Hz. Qed.

Lemma print_signed_decimal_nonneg (val : Z) (st : log_state) :
  0 <= val < 2 ^ 31 ->
  print_signed_value_with_format val DECIMAL st
  = Some (HAL_UART_Transmit (format_unsigned 10 val) st).
Proof.
  intros Hval.
  destruct (format_unsigned_facts 10 10 val) as (_ & Hlen & Hnul); [lia | lia | lia |].
  unfold print_signed_value_with_format. cbn [N.eqb DECIMAL Pos.eqb].
  destruct (Z.ltb_spec val 0); [lia |]. cbn [mbind option_bind].
  rewrite to_uint32_id by (unfold is_uint32; lia).
  rewrite snprintf_fits; [reflexivity | unfold DIGITS_IN_DEC_32_T; lia | exact Hnul].
Qed.

Lemma print_signed_decimal_neg (val : Z) (st : log_state) :
  - 2 ^ 31 < val < 0 ->
  print_signed_value_with_format val DECIMAL st
  = Some (HAL_UART_Transmit (format_unsigned 10 (- val))
            (HAL_UART_Transmit neg_sign st)).
Proof.
  intros Hval.
  destruct (format_unsigned_facts 10 10 (- val)) as (_ & Hlen & Hnul);
    [lia | lia | lia |].
  unfold print_signed_value_with_format, c_abs. cbn [N.eqb DECIMAL Pos.eqb].
  destruct (Z.ltb_spec val 0); [| lia].
  destruct (Z.eqb_spec val (- 2 ^ 31)); [lia |]. cbn [mbind option_bind].
  replace (Z.abs val) with (- val) by lia.
  rewrite to_uint32_id by (unfold is_uint32; lia).
  rewrite snprintf_fits; [reflexivity | unfold DIGITS_IN_DEC_32_T; lia | exact Hnul].
Qed.

(** X15: a signed value is printed in decimal as sign and magnitude: for every
    32-bit value other than the most negative one the UART is given an
    optional [-] and then the digits of the absolute value.  For the most
    negative value, [-2^31], the call of [abs] overflows and the function
    has no defined result. *)
Theorem signed_decimal_is_sign_and_magnitude (val : Z) (st : log_state) :
  is_int32 val ->
  (val = - 2 ^ 31 -> print_signed_value_with_format val DECIMAL st = None) /\
  (val <> - 2 ^ 31 ->
   exists st' digits,
     print_signed_value_with_format val DECIMAL st = Some st' /\
     transmitted st'
       = transmitted st ++ (if val <? 0 then c_str "-" else []) ++ digits /\
     parse_digits 10 digits = Z.abs val /\
     (1 <= length digits <= DIGITS_IN_DEC_32_T)%nat).
Proof.
  intros Hval. unfold is_int32 in Hval. split.
  - intros ->. reflexivity.
  - intros Hmin.
    destruct (format_unsigned_facts 10 10 (Z.abs val)) as (Hparse & Hlen & _);
      [lia | lia | lia |].
    destruct (Z.ltb_spec val 0) as [Hneg | Hpos].
    + eexists. exists (format_unsigned 10 (Z.abs val)).
      split; [apply print_signed_decimal_neg; lia |].
      rewrite !transmitted_HAL_UART_Transmit, <- app_assoc.
      replace (- val) with (Z.abs val) by lia. auto.
    + eexists. exists (format_unsigned 10 (Z.abs val)).
      split; [apply print_signed_decimal_nonneg; lia |].
      rewrite transmitted_HAL_UART_Transmit.
      replace (Z.abs val) with val by lia.
      replace (Z.abs val) with val in Hparse, Hlen by lia. auto.
Qed.

Lemma signed_decimal_is_sign_and_magnitude_witness :
  (-2147483647 = - 2 ^ 31 ->
   print_signed_value_with_format (-2147483647) DECIMAL initial_log_state = None) /\
  (-2147483647 <> - 2 ^ 31 ->
   exists st' digits,
     print_signed_value_with_format (-2147483647) DECIMAL initial_log_state
       = Some st' /\
     transmitted st'
       = transmitted initial_log_state
         ++ (if -2147483647 <? 0 then c_str "-" else []) ++ digits /\
     parse_digits 10 digits = Z.abs (-2147483647) /\
     (1 <= length digits <= DIGITS_IN_DEC_32_T)%nat).
Proof.
  apply (signed_decimal_is_sign_and_magnitude (-2147483647) initial_log_state).
  unfold is_int32. lia.
Defined.

(** X16: in hexadecimal and in binary a signed value is printed as its 32-bit
    two's complement pattern: the digits read back as the value modulo
    [2^32], and a negative value is announced by the two's complement
    notice before the prefix. *)
Theorem signed_value_is_twos_complement (val : Z) (st : log_state) :
  is_int32 val ->
  exists st_hex st_bin hex bits,
    print_signed_value_with_format val HEXADECIMAL st = Some st_hex /\
    print_signed_value_with_format val BINARY st = Some st_bin /\
    transmitted st_hex
      = transmitted st
        ++ (if val <? 0 then c_str "(2's Compliment) " else [])
        ++ c_str "0x" ++ hex /\
    transmitted st_bin
      = transmitted st
        ++ (if val <? 0 then c_str "(2's Compliment) " else [])
        ++ c_str "0b" ++ bits /\
    parse_digits 16 hex = val mod 2 ^ 32 /\
    parse_digits 2 bits = val mod 2 ^ 32 /\
    (1 <= length hex <= DIGITS_IN_HEX_32_T)%nat /\
    length bits = DIGITS_IN_BIN_32_T.
Proof.
  intros Hval. unfold is_int32 in Hval.
  assert (Hu : is_uint32 (to_uint32 val)).
  { unfold is_uint32, to_uint32, wrap_unsigned. apply Z.mod_pos_bound. lia. }
  pose proof Hu as Hrange. unfold is_uint32 in Hrange.
  destruct (format_unsigned_facts 16 8 (to_uint32 val)) as (Hparse & Hlen & Hnul);
    [lia | lia | lia |].
  do 2 eexists. exists (format_unsigned 16 (to_uint32 val)), (binary_digits 32 (to_uint32 val)).
  split; [| split].
  - unfold print_signed_value_with_format.
    cbn [N.eqb DECIMAL HEXADECIMAL Pos.eqb].
    rewrite snprintf_fits; [reflexivity | unfold DIGITS_IN_HEX_32_T; lia | exact Hnul].
  - unfold print_signed_value_with_format.
    cbn [N.eqb DECIMAL HEXADECIMAL BINARY Pos.eqb].
    rewrite binary_buffer_string. reflexivity.
  - rewrite !transmitted_HAL_UART_Transmit.
    split; [| split; [| split; [exact Hparse | split; [| split; [exact Hlen |]]]]].
    + destruct (val <? 0); rewrite ?transmitted_HAL_UART_Transmit, <- ?app_assoc;
        reflexivity.
    + destruct (val <? 0); rewrite ?transmitted_HAL_UART_Transmit, <- ?app_assoc;
        reflexivity.
    + rewrite binary_digits_parse. apply Z.mod_small. exact Hrange.
    + apply binary_digits_length.
Qed.

Lemma signed_value_is_twos_complement_witness :
  exists st_hex st_bin hex bits,
    print_signed_value_with_format (-5) HEXADECIMAL initial_log_state = Some st_hex /\
    print_signed_value_with_format (-5) BINARY initial_log_state = Some st_bin /\
    transmitted st_hex
      = transmitted initial_log_state
        ++ (if -5 <? 0 then c_str "(2's Compliment) " else [])
        ++ c_str "0x" ++ hex /\
    transmitted st_bin
      = transmitted initial_log_state
        ++ (if -5 <? 0 then c_str "(2's Compliment) " else [])
        ++ c_str "0b" ++ bits /\
    parse_digits 16 hex = -5 mod 2 ^ 32 /\
    parse_digits 2 bits = -5 mod 2 ^ 32 /\
    (1 <= length hex <= DIGITS_IN_HEX_32_T)%nat /\
    length bits = DIGITS_IN_BIN_32_T.
Proof.
  apply (signed_value_is_twos_complement (-5) initial_log_state).
  unfold is_int32. lia.
Defined.

(** ** When a message is printed *)





(** X19: the label of every level, also of a value that is no level, fits
    with its terminator in the 30 byte [msg_buff] it is copied to. *)
Theorem level_label_fits_msg_buff (level : N) :
  (length (level_label level) + 1 <= msg_buff_size)%nat /\
  (length (level_label level) + 1 <= 22)%nat.
Proof.
  unfold level_label, msg_buff_size.
  repeat case_match; cbn; lia.
Qed.

(** ** Settings and the UART handle *)

Lemma log_extends_refl (st : log_state) : log_extends st st.
Proof.
  split; try reflexivity. exists []. rewrite app_nil_r. split; [reflexivity | constructor].
Qed.

Lemma log_extends_trans (st1 st2 st3 : log_state) :
  log_extends st1 st2 -> log_extends st2 st3 -> log_extends st1 st3.
Proof.
  intros [Hu1 Hl1 He1 Hg1 (c1 & Hc1 & Hf1)] [Hu2 Hl2 He2 Hg2 (c2 & Hc2 & Hf2)].
  split; try congruence.
  exists (c1 ++ c2). split.
  - rewrite Hc2, Hc1, app_assoc. reflexivity.
  - apply Forall_app. split; [exact Hf1 |].
    rewrite Hu1 in Hf2. exact Hf2.
Qed.

Lemma log_extends_transmit (data : list ascii) (st : log_state) :
  log_extends st (HAL_UART_Transmit data st).
Proof.
  split; try reflexivity. eexists. split; [reflexivity |].
  constructor; [reflexivity | constructor].
Qed.

Lemma log_extends_check
    (config : log_system_config_t) (level : N) (st st' : log_state) :
  log_extends st st' ->
  log_message_preference_check config level st'
  = log_message_preference_check config level st.
Proof.
  intros [_ _ He Hg _]. unfold log_message_preference_check.
  rewrite He, Hg. reflexivity.
Qed.

Lemma log_extends_tag (tag : list ascii) (level : N) (st : log_state) :
  log_extends st (print_tag_and_log_level tag level st).
Proof.
  unfold print_tag_and_log_level.
  repeat (eapply log_extends_trans; [| apply log_extends_transmit]).
  apply log_extends_refl.
Qed.

Lemma log_extends_log_message
    (config : log_system_config_t) (level : N) (msg : list ascii) (st : log_state) :
  log_extends st (log_message config level msg st).
Proof.
  unfold log_message. destruct (log_message_preference_check _ _ _).
  - eapply log_extends_trans; [apply log_extends_tag | apply log_extends_transmit].
  - apply log_extends_refl.
Qed.

Lemma print_unsigned_extends (val : Z) (format : N) (st : log_state) :
  is_uint32 val ->
  exists st', print_unsigned_value_with_format val format st = Some st' /\
              log_extends st st'.
Proof.
  intros Hval. pose proof Hval as Hrange. unfold is_uint32 in Hrange.
  destruct (N.eqb_spec format DECIMAL) as [-> | Hd].
  { rewrite print_unsigned_decimal by exact Hval.
    eexists. split; [reflexivity | apply log_extends_transmit]. }
  destruct (N.eqb_spec format HEXADECIMAL) as [-> | Hh].
  { rewrite print_unsigned_hexadecimal by exact Hval.
    eexists. split; [reflexivity |].
    eapply log_extends_trans; apply log_extends_transmit. }
  unfold print_unsigned_value_with_format.
  apply N.eqb_neq in Hd, Hh. rewrite Hd, Hh.
  destruct (format =? BINARY)%N.
  - rewrite binary_buffer_string. eexists. split; [reflexivity |].
    eapply log_extends_trans; apply log_extends_transmit.
  - eexists. split; [reflexivity | apply log_extends_refl].
Qed.

Lemma print_signed_extends (val : Z) (format : N) (st : log_state) :
  - 2 ^ 31 < val < 2 ^ 31 ->
  exists st', print_signed_value_with_format val format st = Some st' /\
              log_extends st st'.
Proof.
  intros Hval.
  assert (Hu : is_uint32 (to_uint32 val)).
  { unfold is_uint32, to_uint32, wrap_unsigned. apply Z.mod_pos_bound. lia. }
  pose proof Hu as Hrange. unfold is_uint32 in Hrange.
  assert (Ht : log_extends st
                 (if val <? 0 then HAL_UART_Transmit twos_comp st else st)).
  { destruct (val <? 0); [apply log_extends_transmit | apply log_extends_refl]. }
  destruct (N.eqb_spec format DECIMAL) as [-> | Hd].
  { destruct (Z.ltb_spec val 0).
    - rewrite print_signed_decimal_neg by lia. eexists. split; [reflexivity |].
      eapply log_extends_trans; apply log_extends_transmit.
    - rewrite print_signed_decimal_nonneg by lia. eexists. split; [reflexivity |].
      apply log_extends_transmit. }
  unfold print_signed_value_with_format.
  apply N.eqb_neq in Hd. rewrite Hd.
  destruct (format =? HEXADECIMAL)%N; [| destruct (format =? BINARY)%N].
  - destruct (format_unsigned_facts 16 8 (to_uint32 val)) as (_ & Hlen & Hnul);
      [lia | lia | lia |].
    rewrite snprintf_fits; [| unfold DIGITS_IN_HEX_32_T; lia | exact Hnul].
    eexists. split; [reflexivity |].
    eapply log_extends_trans; [exact Ht |].
    eapply log_extends_trans; apply log_extends_transmit.
  - rewrite binary_buffer_string. eexists. split; [reflexivity |].
    eapply log_extends_trans; [exact Ht |].
    eapply log_extends_trans; apply log_extends_transmit.
  - eexists. split; [reflexivity | apply log_extends_refl].
Qed.

Lemma log_unsigned_extends
    (config : log_system_config_t) (level : N) (msg : list ascii)
    (val : Z) (format : N) (st : log_state) :
  is_uint32 val ->
  exists st',
    log_message_with_unsigned_val config level msg val format st = Some st' /\
    log_extends st st'.
Proof.
  intros Hval. unfold log_message_with_unsigned_val.
  destruct (log_message_preference_check _ _ _);
    [| eexists; split; [reflexivity | apply log_extends_refl]].
  destruct (print_unsigned_extends val format
              (HAL_UART_Transmit space
                 (HAL_UART_Transmit msg
                    (print_tag_and_log_level (p_system_tag config) level st))) Hval)
    as (st' & -> & Hext).
  exists st'. split; [reflexivity |].
  eapply log_extends_trans; [| exact Hext].
  eapply log_extends_trans; [| apply log_extends_transmit].
  eapply log_extends_trans; [| apply log_extends_transmit].
  apply log_extends_tag.
Qed.

Lemma log_signed_extends
    (config : log_system_config_t) (level : N) (msg : list ascii)
    (val : Z) (format : N) (st : log_state) :
  - 2 ^ 31 < val < 2 ^ 31 ->
  exists st',
    log_message_with_signed_val config level msg val format st = Some st' /\
    log_extends st st'.
Proof.
  intros Hval. unfold log_message_with_signed_val.
  destruct (log_message_preference_check _ _ _);
    [| eexists; split; [reflexivity | apply log_extends_refl]].
  destruct (print_signed_extends val format
              (HAL_UART_Transmit space
                 (HAL_UART_Transmit msg
                    (print_tag_and_log_level (p_system_tag config) level st))) Hval)
    as (st' & -> & Hext).
  exists st'. split; [reflexivity |].
  eapply log_extends_trans; [| exact Hext].
  eapply log_extends_trans; [| apply log_extends_transmit].
  eapply log_extends_trans; [| apply log_extends_transmit].
  apply log_extends_tag.
Qed.

(** X20: [init_log_system] stores the UART handle and turns the log system
    on whatever it was before; its own announcement is printed, through
    the new handle, exactly when [INFO] is at most the global maximum and
    the maximum of the log system's own configuration. *)
Theorem init_log_system_enables (p_uart : ptr) (st : log_state) :
  let st' := init_log_system p_uart st in
  p_uart_global st' = p_uart /\
  log_system_enabled st' = true /\
  global_max_output_level st' = global_max_output_level st /\
  log_system_log st' = log_system_log st /\
  (if (INFO <=? global_max_output_level st)%N
      && (INFO <=? file_log_level (log_system_log st))%N
   then uart_calls st'
        = uart_calls st
          ++ ((fun data => {| call_huart := p_uart; call_data := data |})
              <$> [ ["010"%char]; p_system_tag (log_system_log st);
                    c_str ", INFO: "; c_str "Log system initialised" ])
   else uart_calls st' = uart_calls st).
Proof.
  cbn zeta. unfold init_log_system, log_message, log_message_preference_check.
  cbn [log_system_enabled log_global_on global_max_output_level log_system_log].
  destruct (INFO <=? global_max_output_level st)%N;
    destruct (INFO <=? file_log_level (log_system_log st))%N; cbn [andb];
    repeat split; cbn; rewrite <- ?app_assoc; reflexivity.
Qed.



(** ** print_debug_info *)

(** X22: [print_debug_info] on a handle whose fields hold values of their
    types always completes: no value it prints can overflow [abs].  It
    leaves the settings of the log system as they are, only adds UART calls
    with the current handle, and adds none when a [DEBUG] message is not
    let through. *)
Theorem print_debug_info_completes
    (config : log_system_config_t) (h : rot_enc_handle_t) (st : log_state) :
  typed_handle h ->
  exists st',
    print_debug_info config h st = Some st' /\
    log_extends st st' /\
    (log_message_preference_check config DEBUG st = false -> st' = st).
Proof.
  intros [Ha Hb Hbtn Hc Hr Hmax Hmin Ho Hn].
  unfold is_uint16, is_int16, is_uint8 in *.
  assert (Hport : forall p : N, is_uint32 (to_uint32 (Z.of_N p))).
  { intros p. unfold is_uint32, to_uint32, wrap_unsigned. apply Z.mod_pos_bound. lia. }
  unfold print_debug_info.
  destruct (log_unsigned_extends config DEBUG (c_str "handle_ptr->pin_a =")
              (pin_a h) HEXADECIMAL st) as (s1 & E1 & X1);
    [unfold is_uint32; lia |].
  destruct (log_unsigned_extends config DEBUG (c_str "handle_ptr->pin_b =")
              (pin_b h) HEXADECIMAL s1) as (s2 & E2 & X2);
    [unfold is_uint32; lia |].
  destruct (log_unsigned_extends config DEBUG (c_str "handle_ptr->button_pin =")
              (button_pin h) HEXADECIMAL s2) as (s3 & E3 & X3);
    [unfold is_uint32; lia |].
  destruct (log_unsigned_extends config DEBUG (c_str "handle_ptr->port_a* =")
              (to_uint32 (Z.of_N (port_a h))) HEXADECIMAL s3 (Hport _))
    as (s4 & E4 & X4).
  destruct (log_unsigned_extends config DEBUG (c_str "handle_ptr->port_b* =")
              (to_uint32 (Z.of_N (port_b h))) HEXADECIMAL s4 (Hport _))
    as (s5 & E5 & X5).
  destruct (log_signed_extends config DEBUG (c_str "handle_ptr->counter =")
              (counter h) DECIMAL s5) as (s6 & E6 & X6); [lia |].
  destruct (log_signed_extends config DEBUG (c_str "handle_ptr->counter_max =")
              (counter_max h) DECIMAL s6) as (s7 & E7 & X7); [lia |].
  destruct (log_signed_extends config DEBUG (c_str "handle_ptr->counter_min =")
              (counter_min h) DECIMAL s7) as (s8 & E8 & X8); [lia |].
  destruct (log_unsigned_extends config DEBUG (c_str "handle_ptr->old_state =")
              (old_state h) DECIMAL s8) as (s9 & E9 & X9);
    [unfold is_uint32; lia |].
  destruct (log_unsigned_extends config DEBUG (c_str "handle_ptr->new_state =")
              (new_state h) DECIMAL s9) as (s10 & E10 & X10);
    [unfold is_uint32; lia |].
  exists s10.
  split; [| split].
  - rewrite E1. cbn [mbind option_bind]. rewrite E2. cbn [mbind option_bind].
    rewrite E3. cbn [mbind option_bind]. rewrite E4. cbn [mbind option_bind].
    rewrite E5. cbn [mbind option_bind]. rewrite E6. cbn [mbind option_bind].
    rewrite E7. cbn [mbind option_bind]. rewrite E8. cbn [mbind option_bind].
    rewrite E9. cbn [mbind option_bind]. exact E10.
  - repeat (eapply log_extends_trans; [eassumption |]). apply log_extends_refl.
  - intros Hoff.
    unfold log_message_with_unsigned_val, log_message_with_signed_val in *.
    rewrite Hoff in E1. injection E1 as <-.
    rewrite Hoff in E2. injection E2 as <-.
    rewrite Hoff in E3. injection E3 as <-.
    rewrite Hoff in E4. injection E4 as <-.
    rewrite Hoff in E5. injection E5 as <-.
    rewrite Hoff in E6. injection E6 as <-.
    rewrite Hoff in E7. injection E7 as <-.
    rewrite Hoff in E8. injection E8 as <-.
    rewrite Hoff in E9. injection E9 as <-.
    rewrite Hoff in E10. injection E10 as <-. reflexivity.
Qed.

Lemma print_debug_info_completes_witness :
  exists st',
    print_debug_info log_rot_enc example_handle (log_global_on initial_log_state)
      = Some st' /\
    log_extends (log_global_on initial_log_state) st' /\
    (log_message_preference_check log_rot_enc DEBUG
       (log_global_on initial_log_state) = false ->
     st' = log_global_on initial_log_state).
Proof.
  apply (print_debug_info_completes log_rot_enc example_handle
           (log_global_on initial_log_state)).
  exact typed_example_handle.
Defined.
